(** * vvp/class_type.cc: class definitions, instance layout and property access

    A shallow embedding of the class-definition engine of the vvp run time
    ([class_type], [class_property_t] and its subclasses, and the three
    [compile_class_*] entry points), with the properties of its layout
    algorithm, of its accessors and of the registration protocol. *)

From Stdlib Require Import NArith ZArith Lia List Permutation Sorting.Sorted.
From stdpp Require Import base option list sorting numbers strings gmap.

Local Open Scope N_scope.

(** ** Outcomes of a call

    A call either returns, or stops the process on a failed [assert], or has
    no defined behaviour (a null pointer is followed, a byte outside the
    buffer is touched, a member that was never written is read). The code is
    modelled as built with assertions enabled. *)

Inductive outcome (A : Type) : Type :=
| Ok (a : A)
| Abort
| Undefined.
Arguments Ok {A} a.
Arguments Abort {A}.
Arguments Undefined {A}.

#[global] Instance outcome_ret : MRet outcome := fun A a => Ok a.
#[global] Instance outcome_bind : MBind outcome := fun A B f m =>
  match m with
  | Ok a => f a
  | Abort => Abort
  | Undefined => Undefined
  end.

(** [assert(b)] *)
Definition assert (b : bool) : outcome unit :=
  if b then Ok tt else Abort.

(** ** The platform

    The sizes that the absent headers and the compiler fix: [sizeof] of
    [std::string], of [vvp_object_t], of [unsigned long], and the width of
    [size_t]. *)

Class Platform := {
  sizeof_string : N;
  sizeof_object : N;
  sizeof_ulong : N;
  size_t_bits : N;
  sizeof_string_pos : 0 < sizeof_string;
  sizeof_object_pos : 0 < sizeof_object;
  sizeof_ulong_cases : sizeof_ulong = 4 ∨ sizeof_ulong = 8;
  size_t_bits_cases : size_t_bits = 32 ∨ size_t_bits = 64
}.

(** An LP64 platform with the libstdc++ string. *)
Definition lp64 : Platform.
Proof.
  refine {| sizeof_string := 32; sizeof_object := 8; sizeof_ulong := 8;
            size_t_bits := 64 |}; first [ reflexivity | right; reflexivity ].
Defined.

(** ** Property kinds *)

(** The integer types [property_atom<T>] is instantiated with. *)
Inductive atom_t : Set :=
| uint8_t | uint16_t | uint32_t | uint64_t
| int8_t | int16_t | int32_t | int64_t.

Definition sizeof_atom (T : atom_t) : N :=
  match T with
  | uint8_t | int8_t => 1
  | uint16_t | int16_t => 2
  | uint32_t | int32_t => 4
  | uint64_t | int64_t => 8
  end.

Definition atom_signed (T : atom_t) : bool :=
  match T with
  | uint8_t | uint16_t | uint32_t | uint64_t => false
  | int8_t | int16_t | int32_t | int64_t => true
  end.

(** The concrete subclasses of [class_property_t]; [property_real] is only
    instantiated with [double]. *)
Inductive property_kind : Set :=
| property_atom (T : atom_t)
| property_real
| property_string
| property_object.

#[global] Instance atom_t_eq_dec : EqDecision atom_t.
Proof. solve_decision. Defined.
#[global] Instance property_kind_eq_dec : EqDecision property_kind.
Proof. solve_decision. Defined.

(** A [class_property_t] object: its dynamic type and its [offset_] member,
    which no constructor writes ([None] until [set_offset]). *)
Record class_property_t : Set := mk_property {
  kind : property_kind;
  offset_ : option N
}.

(** [class_type::prop_info_t]; [type] is a pointer, [None] when null. *)
Record prop_info_t : Set := mk_prop_info {
  name : string;
  type : option class_property_t
}.

Record class_type : Set := mk_class_type {
  class_name_ : string;
  properties_ : list prop_info_t;
  instance_size_ : N
}.

(** [std::map<size_t, vector<size_t> >]: the entries in ascending key order,
    which is the order the map's iterators walk them in. *)
Definition size_map_t : Set := list (N * list nat).

(** [size_map[k].push_back(idx)] *)
Fixpoint size_map_push (k : N) (idx : nat) (m : size_map_t) : size_map_t :=
  match m with
  | [] => [(k, [idx])]
  | (k', v) :: m' =>
      if k <? k' then (k, [idx]) :: m
      else if k =? k' then (k', v ++ [idx]) :: m'
      else (k', v) :: size_map_push k idx m'
  end.

Section Model.
Context `{Platform}.

(** Arithmetic on [size_t] wraps. *)
Definition size_t_wrap (x : N) : N := x mod 2 ^ size_t_bits.
Definition size_t_add (a b : N) : N := size_t_wrap (a + b).

(** [class_property_t::instance_size], as each subclass overrides it. *)
Definition instance_size (p : class_property_t) : N :=
  match kind p with
  | property_atom T => sizeof_atom T
  | property_real => 8
  | property_string => sizeof_string
  | property_object => sizeof_object
  end.

Definition set_offset (off : N) (p : class_property_t) : class_property_t :=
  {| kind := kind p; offset_ := Some off |}.

(** ** class_type *)

(** [class_type::class_type]: [nprop] value-initialised entries. *)
Definition new_class_type (nam : string) (nprop : nat) : class_type :=
  {| class_name_ := nam;
     properties_ := replicate nprop {| name := ""; type := None |};
     instance_size_ := 0 |}.

(** The chain of string comparisons of [set_property]; a fresh property
    object, or the null pointer for a tag none of them matches. *)
Definition property_of_tag (typ : string) : option class_property_t :=
  let fresh k := Some {| kind := k; offset_ := None |} in
  if String.eqb typ "b8" then fresh (property_atom uint8_t)
  else if String.eqb typ "b16" then fresh (property_atom uint16_t)
  else if String.eqb typ "b32" then fresh (property_atom uint32_t)
  else if String.eqb typ "b64" then fresh (property_atom uint64_t)
  else if String.eqb typ "sb8" then fresh (property_atom int8_t)
  else if String.eqb typ "sb16" then fresh (property_atom int16_t)
  else if String.eqb typ "sb32" then fresh (property_atom int32_t)
  else if String.eqb typ "sb64" then fresh (property_atom int64_t)
  else if String.eqb typ "r" then fresh property_real
  else if String.eqb typ "S" then fresh property_string
  else if String.eqb typ "o" then fresh property_object
  else None.

Definition set_property (idx : nat) (nam typ : string) (c : class_type)
  : outcome class_type :=
  _ ← assert (bool_decide (idx < length (properties_ c))%nat);
  Ok {| class_name_ := class_name_ c;
        properties_ := <[idx := {| name := nam; type := property_of_tag typ |}]>
                         (properties_ c);
        instance_size_ := instance_size_ c |}.

(** First loop of [finish_setup]: [props] are the entries from index [idx]
    on. *)
Fixpoint finish_sizes (props : list prop_info_t) (idx : nat) (accum : N)
    (size_map : size_map_t) : outcome (N * size_map_t) :=
  match props with
  | [] => Ok (accum, size_map)
  | p :: rest =>
      match type p with
      | None => Abort
      | Some t =>
          let sz := instance_size t in
          finish_sizes rest (S idx) (size_t_add accum sz)
                       (size_map_push sz idx size_map)
      end
  end.

(** Inner loop of the second pass, over one entry [(sz, pids)] of the map. *)
Fixpoint finish_bucket (sz : N) (pids : list nat) (props : list prop_info_t)
    (accum : N) : outcome (list prop_info_t * N) :=
  match pids with
  | [] => Ok (props, accum)
  | pid :: rest =>
      match props !! pid with
      | None => Undefined
      | Some pi =>
          match type pi with
          | None => Undefined
          | Some ptype =>
              _ ← assert (bool_decide (instance_size ptype = sz));
              finish_bucket sz rest
                (<[pid := {| name := name pi;
                             type := Some (set_offset accum ptype) |}]> props)
                (size_t_add accum sz)
          end
      end
  end.

(** Outer loop of the second pass; [entries] are the map's entries in the
    order the reverse iterator visits them. *)
Fixpoint finish_offsets (entries : size_map_t) (props : list prop_info_t)
    (accum : N) : outcome (list prop_info_t) :=
  match entries with
  | [] => Ok props
  | (sz, pids) :: rest =>
      '(props', accum') ← finish_bucket sz pids props accum;
      finish_offsets rest props' accum'
  end.

Definition finish_setup (c : class_type) : outcome class_type :=
  '(accum, size_map) ← finish_sizes (properties_ c) 0 0 [];
  props ← finish_offsets (reverse size_map) (properties_ c) 0;
  Ok {| class_name_ := class_name_ c;
        properties_ := props;
        instance_size_ := accum |}.

End Model.

(** ** Four-state vectors *)

(** Modelled from the spec: the four-state vector type of vvp_net.h, which is
    absent: "a fixed-width sequence of logic digits in {0,1,X,Z}". Digit 0 is
    the least significant one. *)
Inductive vvp_bit4_t : Set := BIT4_0 | BIT4_1 | BIT4_X | BIT4_Z.

#[global] Instance vvp_bit4_t_eq_dec : EqDecision vvp_bit4_t.
Proof. solve_decision. Defined.

Abbreviation vvp_vector4_t := (list vvp_bit4_t).

Definition bit4_concrete (b : vvp_bit4_t) : bool :=
  match b with
  | BIT4_0 | BIT4_1 => true
  | BIT4_X | BIT4_Z => false
  end.

Definition bit4_of_bool (b : bool) : vvp_bit4_t := if b then BIT4_1 else BIT4_0.

(** The number whose binary digits, least significant first, are the digits
    of a vector; a digit that is not 1 counts as 0. *)
Fixpoint bits_value (v : vvp_vector4_t) : N :=
  match v with
  | [] => 0
  | b :: r => (if bool_decide (b = BIT4_1) then 1 else 0) + 2 * bits_value r
  end.

(** Modelled from the spec: [vector4_to_value] of vvp_net.h, which is absent,
    at the flags [set_vec4] passes. "set_vector4 converts the vector to the
    fixed-width integer; any digit outside {0,1} in the input is a fatal
    error": the conversion fails on a vector with an X or Z digit, and
    otherwise gives the [bits]-bit integer whose bit [i] is digit [i]. *)
Definition vector4_to_value (bits : N) (vec : vvp_vector4_t) : option N :=
  if forallb bit4_concrete vec then Some (bits_value vec mod 2 ^ bits)
  else None.

(** Modelled from the spec: [vvp_vector4_t::resize] of vvp_net.h, which is
    absent: the vector gets the given width ("a vector of width 8 * size()");
    digits that are kept stay, new ones are X. *)
Definition vec4_resize (val : vvp_vector4_t) (wid : nat) : vvp_vector4_t :=
  resize wid BIT4_X val.

(** Bit [i] of an array of [wbits]-bit words. *)
Definition word_array_bit (wbits : N) (words : list N) (i : nat) : bool :=
  N.testbit (nth (N.to_nat (N.of_nat i / wbits)) words 0) (N.of_nat i mod wbits).

(** Modelled from the spec: [vvp_vector4_t::setarray] of vvp_net.h, which is
    absent: digits [adr .. adr+wid-1] become the [wid] low bits of the word
    array ("synthesizing it from the minimum number of machine-word-sized
    chunks needed to cover that width"). *)
Definition vec4_setarray (wbits : N) (val : vvp_vector4_t) (adr wid : nat)
    (words : list N) : vvp_vector4_t :=
  take adr val
  ++ map (fun i => bit4_of_bool (word_array_bit wbits words i)) (seq 0 wid)
  ++ drop (adr + wid) val.

(** ** Instance buffers *)

(** A [double], as its IEEE-754 binary64 encoding. *)
Definition double : Set := N.

(** A [vvp_object_t] handle: nil, or the object it refers to. *)
Definition vvp_object_t : Set := option N.

(** What a property slot can hold: the bit pattern of an integer, a real, a
    string, an object handle. *)
Inductive value : Set :=
| Vatom (n : N)
| Vreal (d : double)
| Vstring (s : string)
| Vobject (o : vvp_object_t).

(** One [char] of an instance buffer: byte [i] of the object representation
    of a value, or the indeterminate content [new char\[n\]] leaves. How a
    value is laid out in its bytes (byte order, the inside of a
    [std::string]) is left to the platform. *)
Inductive memval : Set :=
| Indeterminate
| Frag (v : value) (i : nat).

#[global] Instance value_eq_dec : EqDecision value.
Proof. solve_decision. Defined.
#[global] Instance memval_eq_dec : EqDecision memval.
Proof. solve_decision. Defined.

Abbreviation buffer := (list memval).

Definition object_repr (sz : N) (v : value) : list memval :=
  map (Frag v) (seq 0 (N.to_nat sz)).

(** Write the [sz] bytes of [v] at [buf+off]. *)
Definition store (buf : buffer) (off sz : N) (v : value) : outcome buffer :=
  if bool_decide (N.to_nat off + N.to_nat sz ≤ length buf)%nat then
    Ok (take (N.to_nat off) buf ++ object_repr sz v
        ++ drop (N.to_nat off + N.to_nat sz) buf)
  else Undefined.

(** Read the object of [sz] bytes at [buf+off]: defined when these bytes are
    the representation of one value. *)
Definition load (buf : buffer) (off sz : N) : outcome value :=
  match buf !! N.to_nat off with
  | Some (Frag v _) =>
      if bool_decide (take (N.to_nat sz) (drop (N.to_nat off) buf)
                      = object_repr sz v)
      then Ok v else Undefined
  | _ => Undefined
  end.

(** The [sz] bytes at [buf+off] after the destructor of the object that
    lived there has run: no value is left in them. *)
Definition release (buf : buffer) (off sz : N) : outcome buffer :=
  if bool_decide (N.to_nat off + N.to_nat sz ≤ length buf)%nat then
    Ok (take (N.to_nat off) buf ++ replicate (N.to_nat sz) Indeterminate
        ++ drop (N.to_nat off + N.to_nat sz) buf)
  else Undefined.

(** A value read through a getter. *)
Inductive reading : Set :=
| RVec4 (val : vvp_vector4_t)
| RReal (d : double)
| RString (s : string)
| RObject (o : vvp_object_t).

(** ** The methods of class_property_t and of its subclasses *)

Module Property.
Section Methods.
Context `{Platform}.

(** [buf+offset_] *)
Definition at_offset (p : class_property_t) : outcome N :=
  match offset_ p with
  | Some off => Ok off
  | None => Undefined
  end.

Definition load_atom (buf : buffer) (off sz : N) : outcome N :=
  v ← load buf off sz;
  match v with Vatom n => Ok n | _ => Undefined end.

Definition load_real (buf : buffer) (off : N) : outcome double :=
  v ← load buf off 8;
  match v with Vreal d => Ok d | _ => Undefined end.

Definition load_string (buf : buffer) (off : N) : outcome string :=
  v ← load buf off sizeof_string;
  match v with Vstring s => Ok s | _ => Undefined end.

Definition load_object (buf : buffer) (off : N) : outcome vvp_object_t :=
  v ← load buf off sizeof_object;
  match v with Vobject o => Ok o | _ => Undefined end.

Definition construct (p : class_property_t) (buf : buffer) : outcome buffer :=
  match kind p with
  | property_atom T => off ← at_offset p; store buf off (sizeof_atom T) (Vatom 0)
  | property_real => off ← at_offset p; store buf off 8 (Vreal 0)
  | property_string =>
      off ← at_offset p; store buf off sizeof_string (Vstring "")
  | property_object =>
      off ← at_offset p; store buf off sizeof_object (Vobject None)
  end.

Definition set_vec4 (p : class_property_t) (buf : buffer) (val : vvp_vector4_t)
  : outcome buffer :=
  match kind p with
  | property_atom T =>
      tmp ← at_offset p;
      let r := vector4_to_value (8 * sizeof_atom T) val in
      buf' ← match r with
             | Some n => store buf tmp (sizeof_atom T) (Vatom n)
             | None => Ok buf
             end;
      _ ← assert (bool_decide (is_Some r));
      Ok buf'
  | _ => Abort
  end.

(** The value of a [T] with the given bit pattern. *)
Definition atom_value (T : atom_t) (n : N) : Z :=
  if atom_signed T && (2 ^ (8 * sizeof_atom T - 1) <=? n)
  then Z.of_N n - 2 ^ Z.of_N (8 * sizeof_atom T)
  else Z.of_N n.

(** Conversion to [unsigned long]. *)
Definition to_ulong (z : Z) : N := Z.to_N (z mod 2 ^ Z.of_N (8 * sizeof_ulong)).

Definition get_vec4 (p : class_property_t) (buf : buffer) (val : vvp_vector4_t)
  : outcome vvp_vector4_t :=
  match kind p with
  | property_atom T =>
      off ← at_offset p;
      let tmp_cnt := if sizeof_atom T <? sizeof_ulong then 1
                     else sizeof_atom T / sizeof_ulong in
      src ← load_atom buf off (sizeof_atom T);
      let tmp0 := to_ulong (atom_value T src) in
      let tmp := tmp0 ::
        map (fun idx => to_ulong (Z.shiftr (atom_value T src)
                                    (Z.of_nat idx * 8 * Z.of_N sizeof_ulong)))
            (seq 1 (N.to_nat tmp_cnt - 1)) in
      let val := vec4_resize val (N.to_nat (8 * sizeof_atom T)) in
      Ok (vec4_setarray (8 * sizeof_ulong) val 0 (length val) tmp)
  | _ => Abort
  end.

Definition set_real (p : class_property_t) (buf : buffer) (val : double)
  : outcome buffer :=
  match kind p with
  | property_real => tmp ← at_offset p; store buf tmp 8 (Vreal val)
  | _ => Abort
  end.

Definition get_real (p : class_property_t) (buf : buffer) : outcome double :=
  match kind p with
  | property_real => tmp ← at_offset p; load_real buf tmp
  | _ => Abort
  end.

(** [*tmp = val] assigns to the string that lives at [tmp]. *)
Definition set_string (p : class_property_t) (buf : buffer) (val : string)
  : outcome buffer :=
  match kind p with
  | property_string =>
      tmp ← at_offset p;
      _ ← load_string buf tmp;
      store buf tmp sizeof_string (Vstring val)
  | _ => Abort
  end.

Definition get_string (p : class_property_t) (buf : buffer) : outcome string :=
  match kind p with
  | property_string => tmp ← at_offset p; load_string buf tmp
  | _ => Abort
  end.

Definition set_object (p : class_property_t) (buf : buffer) (val : vvp_object_t)
  : outcome buffer :=
  match kind p with
  | property_object =>
      tmp ← at_offset p;
      _ ← load_object buf tmp;
      store buf tmp sizeof_object (Vobject val)
  | _ => Abort
  end.

Definition get_object (p : class_property_t) (buf : buffer)
  : outcome vvp_object_t :=
  match kind p with
  | property_object => tmp ← at_offset p; load_object buf tmp
  | _ => Abort
  end.

(** [class_property_t::destruct] does nothing; [property_string] and
    [property_object] run the destructor of the object at [buf+offset_]. *)
Definition destruct (p : class_property_t) (buf : buffer) : outcome buffer :=
  match kind p with
  | property_string =>
      tmp ← at_offset p;
      _ ← load_string buf tmp;
      release buf tmp sizeof_string
  | property_object =>
      tmp ← at_offset p;
      _ ← load_object buf tmp;
      release buf tmp sizeof_object
  | _ => Ok buf
  end.

End Methods.
End Property.

(** ** Instances and the accessors of class_type *)

Section Instances.
Context `{Platform}.

Fixpoint construct_all (props : list prop_info_t) (buf : buffer)
  : outcome buffer :=
  match props with
  | [] => Ok buf
  | pi :: rest =>
      match type pi with
      | None => Undefined
      | Some p => buf' ← Property.construct p buf; construct_all rest buf'
      end
  end.

Definition instance_new (c : class_type) : outcome buffer :=
  construct_all (properties_ c)
                (replicate (N.to_nat (instance_size_ c)) Indeterminate).

(** [assert(pid < properties_.size())], then [properties_\[pid\].type->]. *)
Definition property_at (c : class_type) (pid : nat) : outcome class_property_t :=
  _ ← assert (bool_decide (pid < length (properties_ c))%nat);
  match properties_ c !! pid with
  | Some pi => match type pi with Some p => Ok p | None => Undefined end
  | None => Undefined
  end.

Definition set_vec4 (c : class_type) (obj : buffer) (pid : nat)
    (val : vvp_vector4_t) : outcome buffer :=
  p ← property_at c pid; Property.set_vec4 p obj val.

Definition get_vec4 (c : class_type) (obj : buffer) (pid : nat)
    (val : vvp_vector4_t) : outcome vvp_vector4_t :=
  p ← property_at c pid; Property.get_vec4 p obj val.

Definition set_real (c : class_type) (obj : buffer) (pid : nat) (val : double)
  : outcome buffer :=
  p ← property_at c pid; Property.set_real p obj val.

Definition get_real (c : class_type) (obj : buffer) (pid : nat)
  : outcome double :=
  p ← property_at c pid; Property.get_real p obj.

Definition set_string (c : class_type) (obj : buffer) (pid : nat)
    (val : string) : outcome buffer :=
  p ← property_at c pid; Property.set_string p obj val.

Definition get_string (c : class_type) (obj : buffer) (pid : nat)
  : outcome string :=
  p ← property_at c pid; Property.get_string p obj.

Definition set_object (c : class_type) (obj : buffer) (pid : nat)
    (val : vvp_object_t) : outcome buffer :=
  p ← property_at c pid; Property.set_object p obj val.

Definition get_object (c : class_type) (obj : buffer) (pid : nat)
  : outcome vvp_object_t :=
  p ← property_at c pid; Property.get_object p obj.

(** The loop of [instance_delete]. *)
Fixpoint destruct_all (props : list prop_info_t) (buf : buffer)
  : outcome buffer :=
  match props with
  | [] => Ok buf
  | pi :: rest =>
      match type pi with
      | None => Undefined
      | Some p => buf' ← Property.destruct p buf; destruct_all rest buf'
      end
  end.

(** [class_type::instance_delete]: the destructors, then [delete\[\]buf]. *)
Definition instance_delete (c : class_type) (obj : buffer) : outcome unit :=
  _ ← destruct_all (properties_ c) obj;
  Ok tt.

End Instances.

(** The getters and the setters, as one family each. *)
Inductive setter : Set :=
| SetVec4 (val : vvp_vector4_t)
| SetReal (val : double)
| SetString (val : string)
| SetObject (val : vvp_object_t).

Inductive getter : Set :=
| GetVec4 (val : vvp_vector4_t)
| GetReal
| GetString
| GetObject.

(** The operations a subclass overrides. *)
Definition supports_set (k : property_kind) (s : setter) : bool :=
  match k, s with
  | property_atom _, SetVec4 _ => true
  | property_real, SetReal _ => true
  | property_string, SetString _ => true
  | property_object, SetObject _ => true
  | _, _ => false
  end.

Definition supports_get (k : property_kind) (g : getter) : bool :=
  match k, g with
  | property_atom _, GetVec4 _ => true
  | property_real, GetReal => true
  | property_string, GetString => true
  | property_object, GetObject => true
  | _, _ => false
  end.

Section Calls.
Context `{Platform}.

Definition call_set (c : class_type) (obj : buffer) (pid : nat) (s : setter)
  : outcome buffer :=
  match s with
  | SetVec4 val => set_vec4 c obj pid val
  | SetReal val => set_real c obj pid val
  | SetString val => set_string c obj pid val
  | SetObject val => set_object c obj pid val
  end.

Definition call_get (c : class_type) (obj : buffer) (pid : nat) (g : getter)
  : outcome reading :=
  match g with
  | GetVec4 val => v ← get_vec4 c obj pid val; Ok (RVec4 v)
  | GetReal => d ← get_real c obj pid; Ok (RReal d)
  | GetString => s ← get_string c obj pid; Ok (RString s)
  | GetObject => o ← get_object c obj pid; Ok (RObject o)
  end.

End Calls.

(** ** The registration protocol *)

(** The state the three entry points work on: the [class_type] objects
    allocated so far (a pointer is an index into them), the file-static
    [compile_class], the labels [compile_vpi_symbol] has defined, and the
    scope [vpip_peek_current_scope] returns with its [classes] map, if there
    is one. *)
Record vvp_state : Type := mk_vvp_state {
  class_heap : list class_type;
  compile_class : option nat;
  sym_vpi : list (string * nat);
  current_scope : option (gmap string nat)
}.

Inductive call : Set :=
| class_start (lab nam : string) (ntype : nat)
| class_property (idx : nat) (nam typ : string)
| class_done.

Section Protocol.
Context `{Platform}.

(** The state at program start, in a scope or outside of any. *)
Definition initial_state (scope : option (gmap string nat)) : vvp_state :=
  {| class_heap := []; compile_class := None; sym_vpi := [];
     current_scope := scope |}.

(** Modelled from the spec: [compile_vpi_symbol] of compile.cc, which is
    absent: the label is entered in the symbol table, bound to the class. *)
Definition compile_vpi_symbol (lab : string) (obj : nat)
    (syms : list (string * nat)) : list (string * nat) :=
  (lab, obj) :: syms.

(** Modelled from the spec: [vpip_peek_current_scope] of the absent vpi
    code: "the active scope", or null when there is none; the scope is taken
    as its [classes] map, "the enclosing scope's class registry keyed by
    name". *)
Definition vpip_peek_current_scope (s : vvp_state) : option (gmap string nat) :=
  current_scope s.

Definition compile_class_start (lab nam : string) (ntype : nat) (s : vvp_state)
  : outcome vvp_state :=
  _ ← assert (bool_decide (compile_class s = None));
  let ptr := length (class_heap s) in
  Ok {| class_heap := class_heap s ++ [new_class_type nam ntype];
        compile_class := Some ptr;
        sym_vpi := compile_vpi_symbol lab ptr (sym_vpi s);
        current_scope := current_scope s |}.

Definition compile_class_property (idx : nat) (nam typ : string) (s : vvp_state)
  : outcome vvp_state :=
  match compile_class s with
  | None => Abort
  | Some ptr =>
      match class_heap s !! ptr with
      | None => Undefined
      | Some c =>
          c' ← set_property idx nam typ c;
          Ok {| class_heap := <[ptr := c']> (class_heap s);
                compile_class := compile_class s;
                sym_vpi := sym_vpi s;
                current_scope := current_scope s |}
      end
  end.

Definition compile_class_done (s : vvp_state) : outcome vvp_state :=
  match vpip_peek_current_scope s with
  | None => Abort
  | Some classes =>
      match compile_class s with
      | None => Abort
      | Some ptr =>
          match class_heap s !! ptr with
          | None => Undefined
          | Some c =>
              c' ← finish_setup c;
              Ok {| class_heap := <[ptr := c']> (class_heap s);
                    compile_class := None;
                    sym_vpi := sym_vpi s;
                    current_scope := Some (<[class_name_ c' := ptr]> classes) |}
          end
      end
  end.

Definition step (s : vvp_state) (x : call) : outcome vvp_state :=
  match x with
  | class_start lab nam ntype => compile_class_start lab nam ntype s
  | class_property idx nam typ => compile_class_property idx nam typ s
  | class_done => compile_class_done s
  end.

(** A sequence of calls, in order. *)
Fixpoint run (s : vvp_state) (calls : list call) : outcome vvp_state :=
  match calls with
  | [] => Ok s
  | x :: rest => s' ← step s x; run s' rest
  end.

End Protocol.

(** Whether a build is open after a sequence of calls, read off the calls:
    [class_start] opens one, [class_done] closes it. *)
Definition open_after (o : bool) (calls : list call) : bool :=
  foldl (fun o x => match x with
                    | class_start _ _ _ => true
                    | class_property _ _ _ => o
                    | class_done => false
                    end) o calls.

(** From program start: a build is open when the last [class_start] has no
    [class_done] after it. *)
Definition build_open (calls : list call) : bool := open_after false calls.

(** The tags [set_property] knows. *)
Definition recognized_tags : list string :=
  ["b8"; "b16"; "b32"; "b64"; "sb8"; "sb16"; "sb32"; "sb64"; "r"; "S"; "o"]%string.

(** ** The layout, stated apart from the loops that compute it *)

Definition N_sum (l : list N) : N := foldr N.add 0 l.

Section Layout.
Context `{Platform}.

(** Size of the slot of an entry; 0 stands in for an unresolved one. *)
Definition slot_size (pi : prop_info_t) : N :=
  from_option instance_size 0 (type pi).

Definition slot_sizes (props : list prop_info_t) : list N := map slot_size props.

(** Slot [q] is laid out before slot [p]: it is larger, or it has the same
    size and is declared earlier. *)
Definition placed_before (sizes : list N) (q p : nat) : Prop :=
  nth p sizes 0 < nth q sizes 0
  ∨ (nth q sizes 0 = nth p sizes 0 ∧ (q < p)%nat).

#[global] Instance placed_before_dec sizes q p :
  Decision (placed_before sizes q p).
Proof. unfold placed_before. apply _. Defined.

(** The bytes taken by the slots laid out before slot [p]. *)
Definition layout_offset (sizes : list N) (p : nat) : N :=
  N_sum (map (fun q => nth q sizes 0)
             (filter (fun q => placed_before sizes q p)
                     (seq 0 (length sizes)))).

Definition resolved (props : list prop_info_t) : Prop :=
  Forall (fun pi => is_Some (type pi)) props.

(** The class with the layout written into its properties. *)
Definition laid_out (c : class_type) : class_type :=
  let sizes := slot_sizes (properties_ c) in
  {| class_name_ := class_name_ c;
     properties_ :=
       imap (fun pid pi =>
               {| name := name pi;
                  type := set_offset (size_t_wrap (layout_offset sizes pid))
                            <$> type pi |})
            (properties_ c);
     instance_size_ := size_t_wrap (N_sum sizes) |}.

(** The instance is no larger than [size_t] can count. *)
Definition fits_size_t (props : list prop_info_t) : Prop :=
  N_sum (slot_sizes props) < 2 ^ size_t_bits.

(** The largest size a slot can have. *)
Definition max_slot_size : N := N.max 8 (N.max sizeof_string sizeof_object).

(** Offset of slot [pid] of a class, when it has one. *)
Definition slot_offset (c : class_type) (pid : nat) : option N :=
  pi ← properties_ c !! pid; p ← type pi; offset_ p.

Definition slot_kind (c : class_type) (pid : nat) : option property_kind :=
  pi ← properties_ c !! pid; p ← type pi; Some (kind p).

(** The bytes of slot [pid]: where they start and how many they are. *)
Definition slot_range (c : class_type) (pid : nat) : option (N * N) :=
  pi ← properties_ c !! pid; p ← type pi; off ← offset_ p;
  Some (off, instance_size p).

(** A frozen class: what [finish_setup] returns for a class whose slots all
    have a kind and whose instances [size_t] can measure. *)
Definition frozen (c' : class_type) : Prop :=
  ∃ c, resolved (properties_ c) ∧ fits_size_t (properties_ c)
       ∧ finish_setup c = Ok c'.

(** The kinds of the slots, in declaration order. *)
Definition slot_kinds (c : class_type) : list (option property_kind) :=
  map (fun pi => kind <$> type pi) (properties_ c).

(** The class built by the declarations of [UInt8], [UInt64], [UInt32]
    slots, in this order. *)
Definition declared_8_64_32 : outcome class_type :=
  c ← set_property 0 "a" "b8" (new_class_type "C" 3);
  c ← set_property 1 "b" "b64" c;
  set_property 2 "c" "b32" c.

End Layout.

(** ** Slots by kind *)

Section Kinds.
Context `{Platform}.

(** The size [instance_size] gives for a kind. *)
Definition kind_size (k : property_kind) : N :=
  instance_size {| kind := k; offset_ := None |}.

(** What [construct] puts in a slot. *)
Definition initial_value (k : property_kind) : value :=
  match k with
  | property_atom _ => Vatom 0
  | property_real => Vreal 0
  | property_string => Vstring ""
  | property_object => Vobject None
  end.

(** The getter of a kind, and what it reads from a slot that holds the
    initial value: all digits 0, the real 0, the empty string, the nil
    handle. *)
Definition getter_of (k : property_kind) (val : vvp_vector4_t) : getter :=
  match k with
  | property_atom _ => GetVec4 val
  | property_real => GetReal
  | property_string => GetString
  | property_object => GetObject
  end.

Definition initial_reading (k : property_kind) : reading :=
  match k with
  | property_atom T => RVec4 (replicate (N.to_nat (8 * sizeof_atom T)) BIT4_0)
  | property_real => RReal 0
  | property_string => RString ""
  | property_object => RObject None
  end.

(** A value of the sort a kind stores. *)
Definition holds_kind (k : property_kind) (v : value) : bool :=
  match k, v with
  | property_atom _, Vatom _ => true
  | property_real, Vreal _ => true
  | property_string, Vstring _ => true
  | property_object, Vobject _ => true
  | _, _ => false
  end.

(** An instance of a class: a buffer of the class's instance size in which
    every slot holds a value of its kind. *)
Definition live_instance (c : class_type) (obj : buffer) : Prop :=
  length obj = N.to_nat (instance_size_ c)
  ∧ ∀ pid k off,
      property_at c pid = Ok {| kind := k; offset_ := Some off |} →
      ∃ v, load obj off (kind_size k) = Ok v ∧ holds_kind k v = true.

End Kinds.

(** ** Definitions for the proofs *)

Section VisitOrder.
Variable sz : nat → N.

(** Slot [q] goes before slot [p], for sizes given by a function. *)
Definition goes_before (q p : nat) : Prop :=
  sz p < sz q ∨ (sz q = sz p ∧ (q < p)%nat).

#[global] Instance goes_before_dec q p : Decision (goes_before q p).
Proof. unfold goes_before. apply _. Defined.

(** What the first pass keeps true of the map, after [k] slots: keys ascend,
    a bucket holds slots of its size in ascending order, and the buckets
    together hold the slots seen so far. *)
Definition bucket_ok (k : nat) (e : N * list nat) : Prop :=
  Forall (fun i => sz i = e.1 ∧ (i < k)%nat) e.2 ∧ StronglySorted lt e.2.

Definition size_map_ok (k : nat) (m : size_map_t) : Prop :=
  StronglySorted N.lt (map fst m)
  ∧ Forall (bucket_ok k) m
  ∧ concat (map snd m) ≡ₚ seq 0 k.

End VisitOrder.

(** The slots in the order the second pass takes them. *)
Definition visit_order (m : size_map_t) : list nat :=
  concat (map snd (reverse m)).

Section Passes.
Context `{Platform}.

(** The map the first pass builds from the sizes of the slots. *)
Fixpoint push_sizes (sizes : list N) (idx : nat) (m : size_map_t) : size_map_t :=
  match sizes with
  | [] => m
  | sz :: rest => push_sizes rest (S idx) (size_map_push sz idx m)
  end.

(** The second pass as one loop over the pairs (slot, size of its bucket) in
    visiting order. *)
Fixpoint assign_offsets (order : list (nat * N)) (props : list prop_info_t)
    (accum : N) : outcome (list prop_info_t * N) :=
  match order with
  | [] => Ok (props, accum)
  | (pid, sz) :: rest =>
      match props !! pid with
      | None => Undefined
      | Some pi =>
          match type pi with
          | None => Undefined
          | Some ptype =>
              _ ← assert (bool_decide (instance_size ptype = sz));
              assign_offsets rest
                (<[pid := {| name := name pi;
                             type := Some (set_offset accum ptype) |}]> props)
                (size_t_add accum sz)
          end
      end
  end.

Definition flat_entries (entries : size_map_t) : list (nat * N) :=
  concat (map (fun e => map (fun pid => (pid, e.1)) e.2) entries).

(** Word [idx] of the array [get_vec4] fills. *)
Definition ulong_chunk (v : Z) (idx : nat) : N :=
  Property.to_ulong (Z.shiftr v (Z.of_nat idx * 8 * Z.of_N sizeof_ulong)).

End Passes.

(** The digits of the [wid] low bits of a number. *)
Definition bits_of (wid : nat) (n : N) : list vvp_bit4_t :=
  map (fun i => bit4_of_bool (N.testbit n (N.of_nat i))) (seq 0 wid).

(** A getter of the slot's own kind reads the value the slot holds. *)
Definition reading_of (k : property_kind) (v : value) : option reading :=
  match k, v with
  | property_atom T, Vatom n => Some (RVec4 (bits_of (N.to_nat (8 * sizeof_atom T)) n))
  | property_real, Vreal d => Some (RReal d)
  | property_string, Vstring s => Some (RString s)
  | property_object, Vobject o => Some (RObject o)
  | _, _ => None
  end.

(** ** Sample data *)

(** A class with a slot of every sort, as declared and as frozen on [lp64]. *)
Definition sample_decl : class_type :=
  {| class_name_ := "C";
     properties_ :=
       [ {| name := "a"; type := property_of_tag "b8" |};
         {| name := "s"; type := property_of_tag "S" |};
         {| name := "w"; type := property_of_tag "b32" |};
         {| name := "r"; type := property_of_tag "r" |};
         {| name := "o"; type := property_of_tag "o" |};
         {| name := "x"; type := property_of_tag "sb32" |} ];
     instance_size_ := 0 |}.

Definition sample_class : class_type := @laid_out lp64 sample_decl.

(** A class with one [UInt32] slot, as declared and as frozen on [lp64]. *)
Definition word_decl : class_type :=
  {| class_name_ := "W";
     properties_ := [ {| name := "w"; type := property_of_tag "b32" |} ];
     instance_size_ := 0 |}.

Definition word_class : class_type := @laid_out lp64 word_decl.

(** The digits of 0xDEADBEEF. *)
Definition sample_word : vvp_vector4_t := bits_of 32 3735928559.

(** ** Whole registrations, and more about slots *)

(** The calls that declare the slots [0], [1], ... from a list of names and
    tags, and the three-part registration of a class with these slots. *)
Definition declarations (first : nat) (decls : list (string * string))
  : list call :=
  imap (fun i d => class_property (first + i) d.1 d.2) decls.

Definition registration (lab nam : string) (decls : list (string * string))
  : list call :=
  class_start lab nam (length decls) :: declarations 0 decls ++ [class_done].

(** The class these declarations build, before it is frozen. *)
Definition declared_class (nam : string) (decls : list (string * string))
  : class_type :=
  {| class_name_ := nam;
     properties_ :=
       map (fun d => {| name := d.1; type := property_of_tag d.2 |}) decls;
     instance_size_ := 0 |}.

(** The class under construction is one of the class objects. *)
Definition build_pointer_valid (s : vvp_state) : Prop :=
  ∀ ptr, compile_class s = Some ptr → (ptr < length (class_heap s))%nat.

(** A class that [finish_setup] has returned. *)
Definition finished `{Platform} (c : class_type) : Prop :=
  ∃ c0, finish_setup c0 = Ok c.

(** Every name of the scope's classes map leads to a class object that is
    not under construction, has this name and has been through
    [finish_setup]. *)
Definition registry_ok `{Platform} (s : vvp_state) : Prop :=
  ∀ classes nam ptr,
    current_scope s = Some classes → classes !! nam = Some ptr →
    compile_class s ≠ Some ptr
    ∧ ∃ c, class_heap s !! ptr = Some c ∧ class_name_ c = nam ∧ finished c.

(** No slot has an offset yet: the class has not been through
    [finish_setup]. *)
Definition no_offsets (c : class_type) : Prop :=
  ∀ pi p, pi ∈ properties_ c → type pi = Some p → offset_ p = None.

(** Every size divides the sizes that are not smaller. *)
Definition chain_divisible (sizes : list N) : bool :=
  forallb (fun x => forallb (fun y => (y <? x) || (y mod x =? 0)) sizes) sizes.

(** The kinds of fixed-width numbers. *)
Definition numeric_kind (k : property_kind) : bool :=
  match k with
  | property_atom _ | property_real => true
  | property_string | property_object => false
  end.

(** What a setter other than [set_vec4] stores, and what the getter of the
    same sort reads back. *)
Definition setter_value (s : setter) : option value :=
  match s with
  | SetVec4 _ => None
  | SetReal d => Some (Vreal d)
  | SetString x => Some (Vstring x)
  | SetObject o => Some (Vobject o)
  end.

Definition setter_reading (s : setter) : option reading :=
  match s with
  | SetVec4 _ => None
  | SetReal d => Some (RReal d)
  | SetString x => Some (RString x)
  | SetObject o => Some (RObject o)
  end.

(** * Properties *)

(** ** The size map of [finish_setup] *)

Section SizeMap.
Variable sz : nat → N.

Lemma size_map_push_keys_above a key idx m :
  a < key → Forall (N.lt a) (map fst m) →
  Forall (N.lt a) (map fst (size_map_push key idx m)).
Proof.
  intros Ha. induction m as [|[k' v] m IH]; simpl; intros Hm.
  - by repeat constructor.
  - inversion_clear Hm.
    destruct (N.ltb_spec key k'); [|destruct (N.eqb_spec key k')]; simpl;
      repeat constructor; auto.
Qed.

Lemma size_map_push_sorted key idx m :
  StronglySorted N.lt (map fst m) →
  StronglySorted N.lt (map fst (size_map_push key idx m)).
Proof.
  induction m as [|[k' v] m IH]; simpl; intros Hm.
  - repeat constructor.
  - apply StronglySorted_inv in Hm as [Hm Hk'].
    destruct (N.ltb_spec key k'); [|destruct (N.eqb_spec key k')]; simpl.
    + constructor; [by constructor|].
      constructor; [done|].
      eapply Forall_impl; [exact Hk'|]. intros; simpl in *; lia.
    + by constructor.
    + constructor; [auto|].
      apply size_map_push_keys_above; [lia|done].
Qed.

Lemma bucket_ok_mono k e : bucket_ok sz k e → bucket_ok sz (S k) e.
Proof.
  intros [Hall Hs]. split; [|done].
  eapply Forall_impl; [exact Hall|]. intros i [? ?]; split; [done|lia].
Qed.

Lemma bucket_ok_snoc k key v :
  sz k = key → bucket_ok sz k (key, v) → bucket_ok sz (S k) (key, v ++ [k]).
Proof.
  intros Hk [Hall Hs]; simpl in *. split; simpl.
  - apply Forall_app. split.
    + eapply Forall_impl; [exact Hall|]. intros i [? ?]; split; [done|lia].
    + constructor; [split; [done|lia]|constructor].
  - apply StronglySorted_app. split_and!; [|done|repeat constructor].
    intros x1 x2 Hx1 Hx2. apply list_elem_of_singleton in Hx2 as ->.
    rewrite Forall_forall in Hall. by apply Hall.
Qed.

Lemma size_map_push_buckets k m :
  Forall (bucket_ok sz k) m →
  Forall (bucket_ok sz (S k)) (size_map_push (sz k) k m).
Proof.
  induction m as [|[k' v] m IH]; simpl; intros Hm.
  - constructor; [|constructor].
    split; simpl; [|repeat constructor].
    constructor; [split; [done|lia]|constructor].
  - inversion_clear Hm as [|? ? Hv Hm'].
    destruct (N.ltb_spec (sz k) k'); [|destruct (N.eqb_spec (sz k) k')].
    + constructor.
      * split; simpl; [|repeat constructor].
        constructor; [split; [done|lia]|constructor].
      * constructor; [by apply bucket_ok_mono|].
        eapply Forall_impl; [exact Hm'|]. apply bucket_ok_mono.
    + constructor; [by apply bucket_ok_snoc|].
      eapply Forall_impl; [exact Hm'|]. apply bucket_ok_mono.
    + constructor; [by apply bucket_ok_mono|auto].
Qed.

Lemma size_map_push_perm key idx m :
  concat (map snd (size_map_push key idx m)) ≡ₚ idx :: concat (map snd m).
Proof.
  induction m as [|[k' v] m IH]; simpl; [done|].
  destruct (key <? k'); [done|]. destruct (key =? k'); simpl.
  - rewrite <-(assoc_L (++)). simpl.
    by rewrite <-Permutation_middle.
  - rewrite IH. by rewrite <-Permutation_middle.
Qed.

Lemma size_map_ok_empty : size_map_ok sz 0 [].
Proof. split_and!; simpl; [constructor|constructor|done]. Qed.

Lemma size_map_ok_push k m :
  size_map_ok sz k m → size_map_ok sz (S k) (size_map_push (sz k) k m).
Proof.
  intros (Hs & Hb & Hp). split_and!.
  - by apply size_map_push_sorted.
  - by apply size_map_push_buckets.
  - rewrite size_map_push_perm, Hp, seq_S. simpl.
    by rewrite <-Permutation_cons_append.
Qed.

Lemma visit_order_cons e m : visit_order (e :: m) = visit_order m ++ e.2.
Proof.
  unfold visit_order. rewrite reverse_cons, map_app, concat_app. simpl.
  by rewrite (right_id_L [] (++)).
Qed.

Lemma visit_order_perm k m : size_map_ok sz k m → visit_order m ≡ₚ seq 0 k.
Proof.
  intros (_ & _ & Hp). rewrite <-Hp. clear.
  induction m as [|e m IH]; [done|].
  rewrite visit_order_cons, IH. simpl. apply Permutation_app_comm.
Qed.

Lemma visit_order_elem k m i :
  Forall (bucket_ok sz k) m → i ∈ visit_order m →
  ∃ e, e ∈ m ∧ i ∈ e.2 ∧ sz i = e.1.
Proof.
  induction m as [|e m IH]; intros Hm.
  - unfold visit_order; simpl. by intros ?%elem_of_nil.
  - inversion_clear Hm as [|? ? [He _] Hm']. rewrite visit_order_cons.
    intros [Hi|Hi]%elem_of_app.
    + destruct (IH Hm' Hi) as (e' & ? & ? & ?). exists e'.
      split_and!; [by right|done|done].
    + exists e. split_and!; [by left|done|].
      rewrite Forall_forall in He. by apply He.
Qed.

Lemma visit_order_sorted k m :
  size_map_ok sz k m → StronglySorted (goes_before sz) (visit_order m).
Proof.
  intros (Hs & Hb & _). induction m as [|[key v] m IH].
  - constructor.
  - rewrite visit_order_cons. simpl in *.
    apply StronglySorted_inv in Hs as [Hs Hkey].
    inversion_clear Hb as [|? ? [Hv Hvs] Hb'].
    apply StronglySorted_app. split_and!.
    + intros x1 x2 Hx1 Hx2. left.
      destruct (visit_order_elem _ _ _ Hb' Hx1) as ([k1 v1] & He & _ & Hsz).
      simpl in *. rewrite Forall_forall in Hv.
      destruct (Hv x2 Hx2) as [-> _]. rewrite Hsz.
      rewrite Forall_forall in Hkey. apply Hkey.
      apply list_elem_of_fmap. by exists (k1, v1).
    + by apply IH.
    + simpl in *. clear -Hv Hvs. induction Hvs as [|x l Hl IHl Hx].
      * constructor.
      * inversion_clear Hv as [|? ? [Hx1 _] Hv'].
        constructor; [auto|].
        rewrite Forall_forall in Hx, Hv' |- *. intros y Hy. right.
        split; [|by apply Hx].
        destruct (Hv' y Hy) as [-> _]. done.
Qed.

End SizeMap.

(** ** Sums and prefixes *)

Lemma N_sum_perm l1 l2 : l1 ≡ₚ l2 → N_sum l1 = N_sum l2.
Proof. induction 1; simpl; lia. Qed.

Lemma filter_all_true {A} (P : A → Prop) `{∀ x, Decision (P x)} (l : list A) :
  Forall P l → filter P l = l.
Proof.
  induction 1 as [|x l Hx _ IH]; [done|].
  rewrite filter_cons_True by done. by rewrite IH.
Qed.

Lemma filter_all_false {A} (P : A → Prop) `{∀ x, Decision (P x)} (l : list A) :
  Forall (fun x => ¬ P x) l → filter P l = [].
Proof.
  induction 1 as [|x l Hx _ IH]; [done|].
  by rewrite filter_cons_False.
Qed.

Section Prefix.
Variable sz : nat → N.

Lemma goes_before_irrefl p : ¬ goes_before sz p p.
Proof. unfold goes_before. lia. Qed.

Lemma goes_before_asym q p : goes_before sz q p → ¬ goes_before sz p q.
Proof. unfold goes_before. lia. Qed.

(** In a sorted visit order the slots met before [p] are the slots that go
    before [p]. *)
Lemma sorted_prefix n l1 p l2 :
  StronglySorted (goes_before sz) (l1 ++ p :: l2) →
  l1 ++ p :: l2 ≡ₚ seq 0 n →
  l1 ≡ₚ filter (fun q => goes_before sz q p) (seq 0 n).
Proof.
  intros Hs Hp. rewrite <-Hp, filter_app.
  apply StronglySorted_app in Hs as (Hcross & _ & Hs2).
  apply StronglySorted_inv in Hs2 as [_ Hp2].
  rewrite filter_all_true, filter_all_false; [by rewrite (right_id_L [] (++))| |].
  - constructor; [apply goes_before_irrefl|].
    eapply Forall_impl; [exact Hp2|]. intros q. apply goes_before_asym.
  - apply Forall_forall. intros q Hq. apply Hcross; [done|by left].
Qed.

End Prefix.

(** ** finish_setup computes the layout *)

Section FinishSetup.
Context `{Platform}.

Lemma size_t_wrap_add_l a b : size_t_wrap (size_t_wrap a + b) = size_t_wrap (a + b).
Proof. unfold size_t_wrap. by rewrite N.Div0.add_mod_idemp_l. Qed.

Lemma size_t_wrap_small x : x < 2 ^ size_t_bits → size_t_wrap x = x.
Proof. apply N.mod_small. Qed.

Lemma size_t_wrap_0 : size_t_wrap 0 = 0.
Proof. apply size_t_wrap_small. apply N.neq_0_lt_0, N.pow_nonzero. lia. Qed.

Lemma finish_sizes_resolved props idx a m :
  resolved props →
  finish_sizes props idx (size_t_wrap a) m
  = Ok (size_t_wrap (a + N_sum (slot_sizes props)),
        push_sizes (slot_sizes props) idx m).
Proof.
  intros Hres. revert idx a m.
  induction Hres as [|pi props [t Ht] _ IH]; intros idx a m; simpl.
  - by rewrite N.add_0_r.
  - unfold slot_size at 1 2. rewrite Ht. simpl. unfold size_t_add.
    rewrite size_t_wrap_add_l, IH. by rewrite N.add_assoc.
Qed.

Lemma finish_sizes_unresolved props idx accum m :
  ¬ resolved props → finish_sizes props idx accum m = Abort.
Proof.
  revert idx accum m. induction props as [|pi props IH]; intros idx a m Hn.
  - destruct Hn. constructor.
  - simpl. destruct (type pi) as [t|] eqn:Ht; [|done].
    apply IH. intros Hres. apply Hn. constructor; [by rewrite Ht|done].
Qed.

Lemma push_sizes_ok sizes rest : ∀ pre m,
  sizes = pre ++ rest →
  size_map_ok (fun i => nth i sizes 0) (length pre) m →
  size_map_ok (fun i => nth i sizes 0) (length sizes)
              (push_sizes rest (length pre) m).
Proof.
  induction rest as [|x rest IH]; intros pre m Hsizes Hm; simpl.
  - rewrite (right_id_L [] (++)) in Hsizes. by subst pre.
  - assert (Hx : nth (length pre) sizes 0 = x) by (by rewrite Hsizes, nth_middle).
    specialize (IH (pre ++ [x]) (size_map_push x (length pre) m)).
    rewrite length_app, Nat.add_1_r in IH. apply IH.
    + by rewrite <-(assoc_L (++)).
    + rewrite <-Hx. by apply (size_map_ok_push (fun i => nth i sizes 0)).
Qed.

Lemma finish_bucket_flat sz pids : ∀ props accum,
  finish_bucket sz pids props accum
  = assign_offsets (map (fun pid => (pid, sz)) pids) props accum.
Proof.
  induction pids as [|pid pids IH]; intros props accum; simpl; [done|].
  destruct (props !! pid) as [pi|]; [|done].
  destruct (type pi) as [t|]; [|done].
  destruct (assert _); simpl; [apply IH|done|done].
Qed.

Lemma assign_offsets_app l1 l2 : ∀ props accum,
  assign_offsets (l1 ++ l2) props accum
  = '(props', accum') ← assign_offsets l1 props accum;
    assign_offsets l2 props' accum'.
Proof.
  induction l1 as [|[pid sz] l1 IH]; intros props accum; simpl; [done|].
  destruct (props !! pid) as [pi|]; [|done].
  destruct (type pi) as [t|]; [|done].
  destruct (assert _); simpl; [apply IH|done|done].
Qed.

Lemma finish_offsets_flat entries : ∀ props accum,
  finish_offsets entries props accum
  = '(props', _) ← assign_offsets (flat_entries entries) props accum; Ok props'.
Proof.
  induction entries as [|[sz pids] entries IH]; intros props accum; simpl.
  - done.
  - unfold flat_entries. simpl. rewrite assign_offsets_app, finish_bucket_flat.
    destruct (assign_offsets _ props accum) as [[props' accum']| |]; simpl;
      [apply IH|done|done].
Qed.

Lemma flat_entries_app l1 l2 :
  flat_entries (l1 ++ l2) = flat_entries l1 ++ flat_entries l2.
Proof. unfold flat_entries. by rewrite map_app, concat_app. Qed.

Lemma flat_entries_reverse sz k m :
  Forall (bucket_ok sz k) m →
  flat_entries (reverse m) = map (fun pid => (pid, sz pid)) (visit_order m).
Proof.
  induction 1 as [|[key v] m [Hv _] _ IH]; [done|].
  rewrite reverse_cons, flat_entries_app, visit_order_cons, map_app, IH.
  f_equal. unfold flat_entries. simpl in *. rewrite (right_id_L [] (++)).
  apply map_ext_Forall. eapply Forall_impl; [exact Hv|].
  by intros pid [-> _].
Qed.

Lemma tagged_fst {A} (f : nat → A) (l : list nat) :
  (map (fun pid => (pid, f pid)) l).*1 = l.
Proof. induction l as [|x l IH]; simpl; [done|]. by f_equal. Qed.

Lemma tagged_snd {A} (f : nat → A) (l : list nat) :
  (map (fun pid => (pid, f pid)) l).*2 = map f l.
Proof. induction l as [|x l IH]; simpl; [done|]. by f_equal. Qed.

(** What the second pass leaves in the property table. *)
Lemma assign_offsets_spec order : ∀ props a,
  NoDup (order.*1) →
  (∀ pid sz, (pid, sz) ∈ order →
     ∃ pi t, props !! pid = Some pi ∧ type pi = Some t ∧ instance_size t = sz) →
  ∃ props',
    assign_offsets order props (size_t_wrap a)
    = Ok (props', size_t_wrap (a + N_sum (order.*2)))
    ∧ length props' = length props
    ∧ (∀ pid, pid ∉ order.*1 → props' !! pid = props !! pid)
    ∧ (∀ l1 pid sz l2 pi t,
         order = l1 ++ (pid, sz) :: l2 →
         props !! pid = Some pi → type pi = Some t →
         props' !! pid
         = Some {| name := name pi;
                   type := Some (set_offset (size_t_wrap (a + N_sum (l1.*2))) t) |}).
Proof.
  induction order as [|[pid sz] order IH]; intros props a Hnd Hres.
  - exists props. simpl. rewrite N.add_0_r. split_and!; [done..|].
    intros [|? ?] ? ? ? ? ? ?; discriminate.
  - simpl in Hnd. apply NoDup_cons in Hnd as [Hpid Hnd].
    destruct (Hres pid sz) as (pi & t & Hpi & Ht & Hsz); [by left|].
    pose (props1 := <[pid := {| name := name pi;
                                type := Some (set_offset (size_t_wrap a) t) |}]> props).
    assert (Hother : ∀ q, q ≠ pid → props1 !! q = props !! q).
    { intros q Hq. unfold props1. by rewrite list_lookup_insert_ne. }
    destruct (IH props1 (a + sz) Hnd) as (props' & Hrun & Hlen & Hout & Hin).
    { intros q szq Hq. destruct (Hres q szq) as (pi' & t' & ? & ? & ?); [by right|].
      exists pi', t'. rewrite Hother; [done|].
      intros ->. apply Hpid. apply list_elem_of_fmap. by exists (pid, szq). }
    exists props'. split_and!.
    + simpl. rewrite Hpi, Ht. rewrite bool_decide_eq_true_2 by done. simpl.
      unfold size_t_add. rewrite size_t_wrap_add_l. fold props1. rewrite Hrun.
      by rewrite N.add_assoc.
    + rewrite Hlen. unfold props1. by rewrite length_insert.
    + intros q Hq. apply not_elem_of_cons in Hq as [Hq1 Hq2].
      rewrite Hout by done. by apply Hother.
    + intros l1 q szq l2 pi' t' Heq Hpi' Ht'. destruct l1 as [|e l1]; simpl in Heq.
      * injection Heq as -> -> ->. rewrite Hout by done. unfold props1.
        rewrite list_lookup_insert_eq by (by eapply lookup_lt_Some).
        simpl. rewrite N.add_0_r. congruence.
      * injection Heq as <- ->. simpl. rewrite N.add_assoc.
        assert (q ≠ pid).
        { intros ->. apply Hpid. rewrite fmap_app. apply elem_of_app. right. by left. }
        apply (Hin l1 q szq l2); [done| |done]. by rewrite Hother.
Qed.

Lemma visit_order_push_sizes sizes :
  size_map_ok (fun i => nth i sizes 0) (length sizes) (push_sizes sizes 0 []).
Proof. apply (push_sizes_ok sizes sizes []); [done|]. apply size_map_ok_empty. Qed.

Lemma slot_sizes_nth props pid pi :
  props !! pid = Some pi → nth pid (slot_sizes props) 0 = slot_size pi.
Proof.
  intros Hpi. apply nth_lookup_Some. unfold slot_sizes.
  change (map slot_size props) with (slot_size <$> props).
  by rewrite list_lookup_fmap, Hpi.
Qed.

(** On a class whose slots all have a kind, [finish_setup] returns, and what
    it returns is the class with the layout of [laid_out]. *)
Lemma finish_setup_laid_out c :
  resolved (properties_ c) → finish_setup c = Ok (laid_out c).
Proof.
  intros Hres. unfold finish_setup.
  rewrite <-size_t_wrap_0 at 1. rewrite finish_sizes_resolved by done. simpl.
  set (sizes := slot_sizes (properties_ c)).
  set (m := push_sizes sizes 0 []).
  pose (sz := fun i => nth i sizes 0).
  assert (Hm : size_map_ok sz (length sizes) m) by apply visit_order_push_sizes.
  assert (Hlen : length sizes = length (properties_ c))
    by (unfold sizes, slot_sizes; apply length_map).
  pose proof (visit_order_perm _ _ _ Hm) as Hperm.
  pose proof (visit_order_sorted _ _ _ Hm) as Hsorted.
  destruct Hm as (_ & Hb & _).
  rewrite finish_offsets_flat, (flat_entries_reverse sz _ _ Hb).
  rewrite <-size_t_wrap_0 at 1.
  assert (Hslot : ∀ pid, pid ∈ visit_order m →
            ∃ pi t, properties_ c !! pid = Some pi ∧ type pi = Some t
                    ∧ instance_size t = sz pid).
  { intros pid Hpid. rewrite Hperm in Hpid. apply elem_of_seq in Hpid.
    destruct (lookup_lt_is_Some_2 (properties_ c) pid) as [pi Hpi]; [lia|].
    unfold resolved in Hres. rewrite Forall_forall in Hres.
    destruct (Hres pi) as [t Ht]; [by eapply list_elem_of_lookup_2|].
    exists pi, t. split_and!; [done..|].
    unfold sz, sizes. rewrite (slot_sizes_nth _ _ _ Hpi).
    unfold slot_size. by rewrite Ht. }
  destruct (assign_offsets_spec
              (map (fun pid => (pid, sz pid)) (visit_order m)) (properties_ c) 0)
    as (props' & Hrun & Hlen' & _ & Hin).
  { rewrite tagged_fst, Hperm. apply NoDup_seq. }
  { intros pid s [q [[= -> ->] Hq]]%list_elem_of_fmap. by apply Hslot. }
  rewrite Hrun. simpl. unfold laid_out. fold sizes. f_equal. f_equal.
  apply list_eq. intros pid. rewrite list_lookup_imap.
  destruct (properties_ c !! pid) as [pi|] eqn:Hpi; simpl.
  - assert (Hpid : pid ∈ visit_order m).
    { rewrite Hperm. apply elem_of_seq. apply lookup_lt_Some in Hpi. lia. }
    destruct (Hslot pid Hpid) as (pi' & t & Hpi' & Ht & _).
    assert (pi' = pi) as -> by congruence.
    destruct (list_elem_of_split _ _ Hpid) as (l1 & l2 & Hsplit).
    rewrite (Hin (map (fun q => (q, sz q)) l1) pid (sz pid)
                 (map (fun q => (q, sz q)) l2) pi t); [| |done|done].
    + rewrite Ht. simpl. do 5 f_equal.
      rewrite Hsplit in Hsorted, Hperm.
      pose proof (sorted_prefix sz _ _ _ _ Hsorted Hperm) as Hl1.
      unfold layout_offset. rewrite tagged_snd, N.add_0_l.
      apply N_sum_perm. by apply Permutation_map.
    + rewrite Hsplit, map_app. done.
  - apply lookup_ge_None. rewrite Hlen'. by apply lookup_ge_None.
Qed.

End FinishSetup.

(** ** The layout itself *)

Lemma N_sum_filter_le {A} (f : A → N) (P Q : A → Prop)
    `{∀ x, Decision (P x)} `{∀ x, Decision (Q x)} (l : list A) :
  (∀ y, P y → Q y) →
  N_sum (map f (filter P l)) ≤ N_sum (map f (filter Q l)).
Proof.
  intros HPQ. induction l as [|y l IH]; simpl; [done|].
  rewrite !filter_cons. destruct (decide (P y)) as [HP|HP].
  - rewrite decide_True by auto. simpl. lia.
  - destruct (decide (Q y)); simpl; lia.
Qed.

Lemma N_sum_filter_room {A} (f : A → N) (P Q : A → Prop)
    `{∀ x, Decision (P x)} `{∀ x, Decision (Q x)} (l : list A) (x : A) :
  (∀ y, P y → Q y) → x ∈ l → Q x → ¬ P x →
  N_sum (map f (filter P l)) + f x ≤ N_sum (map f (filter Q l)).
Proof.
  intros HPQ Hx HQx HPx. induction Hx as [x l|x y l _ IH].
  - rewrite filter_cons_False, filter_cons_True by done. simpl.
    pose proof (N_sum_filter_le f P Q l HPQ). lia.
  - specialize (IH HQx HPx). rewrite !filter_cons.
    destruct (decide (P y)) as [HP|HP].
    + rewrite decide_True by auto. simpl. lia.
    + destruct (decide (Q y)); simpl; lia.
Qed.

Lemma map_nth_seq (sizes : list N) :
  map (fun q => nth q sizes 0) (seq 0 (length sizes)) = sizes.
Proof.
  apply list_eq. intros i.
  change (map ?f ?l) with (f <$> l). rewrite list_lookup_fmap.
  destruct (decide (i < length sizes)%nat) as [Hi|Hi].
  - rewrite lookup_seq_lt by done. simpl.
    destruct (lookup_lt_is_Some_2 sizes i Hi) as [x Hx].
    by rewrite Hx, (nth_lookup_Some _ _ _ _ Hx).
  - rewrite lookup_seq_ge by lia. symmetry. apply lookup_ge_None. lia.
Qed.

(** A slot ends where or before the instance does. *)
Lemma layout_offset_end sizes p :
  (p < length sizes)%nat →
  layout_offset sizes p + nth p sizes 0 ≤ N_sum sizes.
Proof.
  intros Hp. rewrite <-(map_nth_seq sizes) at 3.
  rewrite <-(filter_all_true (fun _ => True) (seq 0 (length sizes)))
    by (by apply Forall_forall).
  unfold layout_offset.
  apply (N_sum_filter_room (fun q => nth q sizes 0)); [done| |done|].
  - apply elem_of_seq. lia.
  - unfold placed_before. lia.
Qed.

(** A slot laid out before another one ends where or before that one
    starts. *)
Lemma layout_offset_before sizes q p :
  (q < length sizes)%nat → placed_before sizes q p →
  layout_offset sizes q + nth q sizes 0 ≤ layout_offset sizes p.
Proof.
  intros Hq Hqp. unfold layout_offset.
  apply (N_sum_filter_room (fun x => nth x sizes 0)); [| |done|].
  - unfold placed_before in *. intros y. lia.
  - apply elem_of_seq. lia.
  - unfold placed_before. lia.
Qed.

Lemma placed_before_total sizes q p :
  q ≠ p → placed_before sizes q p ∨ placed_before sizes p q.
Proof. unfold placed_before. lia. Qed.

Section LayoutFacts.
Context `{Platform}.

Lemma instance_size_pos t : 0 < instance_size t.
Proof.
  unfold instance_size. destruct (kind t) as [[]| | |]; simpl;
    first [lia | apply sizeof_string_pos | apply sizeof_object_pos].
Qed.

Lemma laid_out_lookup c pid pi :
  properties_ c !! pid = Some pi →
  properties_ (laid_out c) !! pid
  = Some {| name := name pi;
            type := set_offset (size_t_wrap
                      (layout_offset (slot_sizes (properties_ c)) pid))
                    <$> type pi |}.
Proof. intros Hpi. simpl. by rewrite list_lookup_imap, Hpi. Qed.

Lemma laid_out_length c :
  length (properties_ (laid_out c)) = length (properties_ c).
Proof. simpl. apply length_imap. Qed.

Lemma resolved_lookup props pid :
  resolved props → (pid < length props)%nat →
  ∃ pi t, props !! pid = Some pi ∧ type pi = Some t.
Proof.
  intros Hres Hpid.
  destruct (lookup_lt_is_Some_2 props pid Hpid) as [pi Hpi].
  unfold resolved in Hres. rewrite Forall_forall in Hres.
  destruct (Hres pi) as [t Ht]; [by eapply list_elem_of_lookup_2|].
  by exists pi, t.
Qed.

Lemma slot_sizes_length props : length (slot_sizes props) = length props.
Proof. apply length_map. Qed.

Lemma fits_offset props pid :
  fits_size_t props → (pid < length props)%nat →
  size_t_wrap (layout_offset (slot_sizes props) pid)
  = layout_offset (slot_sizes props) pid.
Proof.
  intros Hfits Hpid. apply size_t_wrap_small.
  pose proof (layout_offset_end (slot_sizes props) pid) as Hend.
  rewrite slot_sizes_length in Hend. specialize (Hend Hpid).
  unfold fits_size_t in Hfits. lia.
Qed.

Lemma slot_size_le pi : slot_size pi ≤ max_slot_size.
Proof.
  unfold slot_size, max_slot_size. destruct (type pi) as [[k o]|]; simpl; [|lia].
  unfold instance_size. simpl. destruct k as [[]| | |]; simpl; lia.
Qed.

(** A class fits as soon as its number of slots times the largest slot size
    does: on [lp64], any class of fewer than 2^59 slots. *)
Lemma fits_size_t_by_count props :
  N.of_nat (length props) * max_slot_size < 2 ^ size_t_bits →
  fits_size_t props.
Proof.
  intros Hcount. unfold fits_size_t.
  assert (Hsum : N_sum (slot_sizes props)
                 ≤ N.of_nat (length props) * max_slot_size).
  { clear Hcount. induction props as [|pi props IH]; simpl; [lia|].
    pose proof (slot_size_le pi). rewrite Nat2N.inj_succ, N.mul_succ_l. lia. }
  lia.
Qed.

(** The slots of a laid-out class: kind as declared, offset as the layout
    gives it. *)
Lemma laid_out_slot c pid pi t :
  fits_size_t (properties_ c) →
  properties_ c !! pid = Some pi → type pi = Some t →
  properties_ (laid_out c) !! pid
  = Some {| name := name pi;
            type := Some {| kind := kind t;
                            offset_ := Some (layout_offset
                                         (slot_sizes (properties_ c)) pid) |} |}.
Proof.
  intros Hfits Hpi Ht. rewrite (laid_out_lookup _ _ _ Hpi), Ht. simpl.
  unfold set_offset. rewrite fits_offset; [done..|].
  by eapply lookup_lt_Some.
Qed.

End LayoutFacts.

(** ** The claims on the layout *)

Section LayoutClaims.
Context `{Platform}.

Lemma size_t_wrap_le_13 x : x ≤ 13 → size_t_wrap x = x.
Proof.
  intros Hx. apply size_t_wrap_small.
  destruct size_t_bits_cases as [-> | ->]; simpl; lia.
Qed.

(** C1. Freezing a class with the slots UInt8, UInt64, UInt32, declared in
    this order, puts the UInt64 slot at offset 0, the UInt32 slot at 8, the
    UInt8 slot at 12, and makes the instance 13 bytes. In general, freezing
    puts a slot right after all the slots of a larger size and the slots of
    its own size that are declared before it: buckets go by descending size,
    and a bucket is filled without gaps in declaration order. *)
Theorem finish_setup_layout_order :
  (∀ c, slot_kinds c = [Some (property_atom uint8_t);
                        Some (property_atom uint64_t);
                        Some (property_atom uint32_t)] →
        ∃ c', finish_setup c = Ok c'
              ∧ slot_offset c' 1 = Some 0
              ∧ slot_offset c' 2 = Some 8
              ∧ slot_offset c' 0 = Some 12
              ∧ instance_size_ c' = 13)
  ∧ (∀ c, resolved (properties_ c) → fits_size_t (properties_ c) →
          ∃ c', finish_setup c = Ok c'
                ∧ ∀ pid, (pid < length (properties_ c))%nat →
                    slot_offset c' pid
                    = Some (layout_offset (slot_sizes (properties_ c)) pid)).
Proof.
  split.
  - intros c Hkinds. unfold slot_kinds in Hkinds.
    destruct c as [nam props isz]; simpl in Hkinds.
    destruct props as [|[n0 [[k0 o0]|]] [|[n1 [[k1 o1]|]] [|[n2 [[k2 o2]|]] [|? ?]]]];
      try discriminate.
    simpl in Hkinds. injection Hkinds as -> -> ->.
    eexists. split.
    + apply finish_setup_laid_out. simpl. repeat constructor; by eexists.
    + unfold slot_offset; simpl. unfold set_offset; simpl.
      rewrite !size_t_wrap_le_13 by (vm_compute; discriminate).
      split_and!; reflexivity.
  - intros c Hres Hfits. exists (laid_out c). split.
    + by apply finish_setup_laid_out.
    + intros pid Hpid.
      destruct (resolved_lookup _ _ Hres Hpid) as (pi & t & Hpi & Ht).
      unfold slot_offset. by rewrite (laid_out_slot _ _ _ _ Hfits Hpi Ht).
Qed.

(** C2. After freezing a class whose slots all have a kind, the instance
    size is the sum of the sizes of the slots, whatever their kinds: nothing
    is added for alignment. The sum is computed in [size_t]; it is the exact
    sum whenever that can be counted in a [size_t]. *)
Theorem finish_setup_instance_size c :
  resolved (properties_ c) →
  ∃ c', finish_setup c = Ok c'
        ∧ instance_size_ c' = size_t_wrap (N_sum (slot_sizes (properties_ c)))
        ∧ (fits_size_t (properties_ c) →
           instance_size_ c' = N_sum (slot_sizes (properties_ c))).
Proof.
  intros Hres. exists (laid_out c). split_and!.
  - by apply finish_setup_laid_out.
  - done.
  - intros Hfits. simpl. by apply size_t_wrap_small.
Qed.

Lemma laid_out_range c pid pi t :
  fits_size_t (properties_ c) →
  properties_ c !! pid = Some pi → type pi = Some t →
  slot_range (laid_out c) pid
  = Some (layout_offset (slot_sizes (properties_ c)) pid,
          nth pid (slot_sizes (properties_ c)) 0).
Proof.
  intros Hfits Hpi Ht. unfold slot_range.
  rewrite (laid_out_slot _ _ _ _ Hfits Hpi Ht). simpl.
  rewrite (slot_sizes_nth _ _ _ Hpi). unfold slot_size. rewrite Ht. done.
Qed.

Lemma slot_sizes_pos props pid :
  resolved props → (pid < length props)%nat → 0 < nth pid (slot_sizes props) 0.
Proof.
  intros Hres Hpid.
  destruct (resolved_lookup _ _ Hres Hpid) as (pi & t & Hpi & Ht).
  rewrite (slot_sizes_nth _ _ _ Hpi). unfold slot_size. rewrite Ht. simpl.
  apply instance_size_pos.
Qed.

(** C3. In a frozen class every slot starts inside the instance and ends
    inside it, and two different slots have different offsets and byte
    ranges that do not meet. *)
Theorem finish_setup_slots_disjoint c :
  resolved (properties_ c) → fits_size_t (properties_ c) →
  ∃ c', finish_setup c = Ok c'
    ∧ (∀ p, (p < length (properties_ c))%nat →
         ∃ off sz, slot_range c' p = Some (off, sz)
                   ∧ off < instance_size_ c'
                   ∧ off + sz ≤ instance_size_ c')
    ∧ (∀ p q off_p sz_p off_q sz_q,
         p ≠ q →
         slot_range c' p = Some (off_p, sz_p) →
         slot_range c' q = Some (off_q, sz_q) →
         off_p ≠ off_q ∧ (off_p + sz_p ≤ off_q ∨ off_q + sz_q ≤ off_p)).
Proof.
  intros Hres Hfits. exists (laid_out c).
  set (sizes := slot_sizes (properties_ c)).
  assert (Hlen : length sizes = length (properties_ c)) by apply slot_sizes_length.
  assert (Hsize : instance_size_ (laid_out c) = N_sum sizes).
  { simpl. by apply size_t_wrap_small. }
  assert (Hrange : ∀ p off sz, slot_range (laid_out c) p = Some (off, sz) →
            (p < length (properties_ c))%nat
            ∧ off = layout_offset sizes p ∧ sz = nth p sizes 0).
  { intros p off sz Hp.
    assert (Hlt : (p < length (properties_ c))%nat).
    { rewrite <-laid_out_length. apply lookup_lt_is_Some.
      unfold slot_range in Hp. destruct (properties_ (laid_out c) !! p); [by eexists|done]. }
    destruct (resolved_lookup _ _ Hres Hlt) as (pi & t & Hpi & Ht).
    rewrite (laid_out_range _ _ _ _ Hfits Hpi Ht) in Hp. by injection Hp as <- <-. }
  split_and!.
  - by apply finish_setup_laid_out.
  - intros p Hp.
    destruct (resolved_lookup _ _ Hres Hp) as (pi & t & Hpi & Ht).
    eexists _, _. split; [by apply (laid_out_range _ _ _ _ Hfits Hpi Ht)|].
    fold sizes. rewrite Hsize.
    pose proof (layout_offset_end sizes p) as Hend.
    pose proof (slot_sizes_pos _ _ Hres Hp) as Hpos. fold sizes in Hpos.
    rewrite Hlen in Hend. specialize (Hend Hp). lia.
  - intros p q off_p sz_p off_q sz_q Hpq Hp Hq.
    apply Hrange in Hp as (Hp & -> & ->). apply Hrange in Hq as (Hq & -> & ->).
    pose proof (slot_sizes_pos _ _ Hres Hp) as Hpos_p.
    pose proof (slot_sizes_pos _ _ Hres Hq) as Hpos_q.
    fold sizes in Hpos_p, Hpos_q.
    destruct (placed_before_total sizes p q Hpq) as [Hb|Hb].
    + pose proof (layout_offset_before sizes p q) as Hle.
      rewrite Hlen in Hle. specialize (Hle Hp Hb). lia.
    + pose proof (layout_offset_before sizes q p) as Hle.
      rewrite Hlen in Hle. specialize (Hle Hq Hb). lia.
Qed.

End LayoutClaims.

(** ** Declarations and unsupported calls *)

Section Declarations.
Context `{Platform}.

Lemma property_of_tag_unknown typ :
  typ ∉ recognized_tags → property_of_tag typ = None.
Proof.
  intros Hn. unfold property_of_tag.
  repeat match goal with
  | |- context [String.eqb typ ?t] =>
      destruct (String.eqb_spec typ t) as [->|_];
        [exfalso; apply Hn; unfold recognized_tags;
         repeat first [by left | right] |]
  end.
  done.
Qed.

Lemma finish_setup_unresolved c :
  ¬ resolved (properties_ c) → finish_setup c = Abort.
Proof.
  intros Hn. unfold finish_setup. by rewrite finish_sizes_unresolved.
Qed.

(** C7. A declaration with a tag that is not one of the eleven known tags
    returns and leaves the slot without a kind; freezing a class that has a
    slot without a kind aborts. *)
Theorem unknown_tag_deferred_to_freeze idx nam typ c :
  typ ∉ recognized_tags → (idx < length (properties_ c))%nat →
  (∃ c1, set_property idx nam typ c = Ok c1
         ∧ properties_ c1 !! idx = Some {| name := nam; type := None |}
         ∧ slot_kind c1 idx = None
         ∧ finish_setup c1 = Abort)
  ∧ (∀ c2 pid pi, properties_ c2 !! pid = Some pi → type pi = None →
       finish_setup c2 = Abort).
Proof.
  intros Htyp Hidx.
  assert (Hgen : ∀ c2 pid pi, properties_ c2 !! pid = Some pi → type pi = None →
            finish_setup c2 = Abort).
  { intros c2 pid pi Hpi Ht. apply finish_setup_unresolved. intros Hres.
    unfold resolved in Hres. rewrite Forall_forall in Hres.
    destruct (Hres pi) as [t Ht']; [by eapply list_elem_of_lookup_2|]. congruence. }
  split; [|exact Hgen].
  unfold set_property. rewrite bool_decide_eq_true_2 by done. simpl.
  rewrite (property_of_tag_unknown _ Htyp). eexists. split; [done|].
  assert (Hl : <[idx:={| name := nam; type := None |}]> (properties_ c) !! idx
               = Some {| name := nam; type := None |})
    by (by apply list_lookup_insert_eq).
  split_and!; simpl.
  - done.
  - unfold slot_kind. simpl. by rewrite Hl.
  - by eapply Hgen.
Qed.

Lemma property_at_kind c pid k :
  slot_kind c pid = Some k → ∃ p, property_at c pid = Ok p ∧ kind p = k.
Proof.
  unfold slot_kind, property_at. intros Hk.
  destruct (properties_ c !! pid) as [pi|] eqn:Hpi; [|done]. simpl in Hk.
  destruct (type pi) as [p|] eqn:Hp; [|done]. simpl in Hk.
  rewrite bool_decide_eq_true_2 by (by eapply lookup_lt_Some). simpl.
  exists p. split; congruence.
Qed.

(** C6. An accessor called on a slot whose kind does not have it aborts; it
    does not return. *)
Theorem unsupported_accessor_aborts c obj pid k :
  slot_kind c pid = Some k →
  (∀ s, supports_set k s = false → call_set c obj pid s = Abort)
  ∧ (∀ g, supports_get k g = false → call_get c obj pid g = Abort).
Proof.
  intros Hk. destruct (property_at_kind _ _ _ Hk) as (p & Hp & Hkind).
  split.
  - intros s Hs. destruct s; simpl;
      [unfold set_vec4|unfold set_real|unfold set_string|unfold set_object];
      rewrite Hp; simpl;
      [unfold Property.set_vec4|unfold Property.set_real
      |unfold Property.set_string|unfold Property.set_object];
      rewrite Hkind; by destruct k.
  - intros g Hg. destruct g; simpl;
      [unfold get_vec4|unfold get_real|unfold get_string|unfold get_object];
      rewrite Hp; simpl;
      [unfold Property.get_vec4|unfold Property.get_real
      |unfold Property.get_string|unfold Property.get_object];
      rewrite Hkind; by destruct k.
Qed.

Lemma frozen_laid_out c' :
  frozen c' → ∃ c, resolved (properties_ c) ∧ fits_size_t (properties_ c)
                   ∧ c' = laid_out c.
Proof.
  intros (c & Hres & Hfits & Hrun). exists c. split_and!; [done..|].
  rewrite finish_setup_laid_out in Hrun by done. by injection Hrun.
Qed.

(** A slot of a frozen class: its property object, with its offset. *)
Lemma frozen_property_at c' pid k :
  frozen c' → slot_kind c' pid = Some k →
  ∃ off, property_at c' pid = Ok {| kind := k; offset_ := Some off |}
         ∧ slot_range c' pid
           = Some (off, instance_size {| kind := k; offset_ := Some off |}).
Proof.
  intros Hfr Hk. destruct (frozen_laid_out _ Hfr) as (c & Hres & Hfits & ->).
  unfold slot_kind in Hk. unfold property_at, slot_range.
  destruct (properties_ (laid_out c) !! pid) as [pi'|] eqn:Hpi'; [|done].
  pose proof (lookup_lt_Some _ _ _ Hpi') as Hlt.
  rewrite bool_decide_eq_true_2 by done. simpl.
  rewrite laid_out_length in Hlt.
  destruct (resolved_lookup _ _ Hres Hlt) as (pi & t & Hpi & Ht).
  rewrite (laid_out_slot _ _ _ _ Hfits Hpi Ht) in Hpi'.
  injection Hpi' as <-. simpl in *. injection Hk as <-.
  by eexists.
Qed.

Lemma vector4_to_value_undefined bits val b :
  b ∈ val → bit4_concrete b = false → vector4_to_value bits val = None.
Proof.
  intros Hb Hc. unfold vector4_to_value.
  destruct (forallb bit4_concrete val) eqn:Hall; [|done].
  rewrite forallb_forall in Hall. rewrite Hall in Hc; [done|].
  by apply list_elem_of_In.
Qed.

(** C5. [set_vec4] on an integer slot of a frozen class, with a vector that
    has an X or a Z digit, aborts: nothing is stored and returned. *)
Theorem set_vec4_undefined_digit_aborts c obj pid T val b :
  frozen c → slot_kind c pid = Some (property_atom T) →
  b ∈ val → b = BIT4_X ∨ b = BIT4_Z →
  set_vec4 c obj pid val = Abort.
Proof.
  intros Hfr Hk Hb Hxz.
  destruct (frozen_property_at _ _ _ Hfr Hk) as (off & Hp & _).
  unfold set_vec4. rewrite Hp. simpl. unfold Property.set_vec4. simpl.
  rewrite (vector4_to_value_undefined _ _ b); [done|done|].
  by destruct Hxz as [-> | ->].
Qed.

End Declarations.

(** ** The registration protocol *)

Section ProtocolClaims.
Context `{Platform}.

Lemma step_compile_class s x s' :
  step s x = Ok s' →
  bool_decide (is_Some (compile_class s'))
  = open_after (bool_decide (is_Some (compile_class s))) [x].
Proof.
  destruct x as [lab nam ntype|idx nam typ|]; simpl.
  - unfold compile_class_start. destruct (assert _); [|done..]. simpl.
    by intros [= <-].
  - unfold compile_class_property.
    destruct (compile_class s) as [ptr|] eqn:Hc; [|done].
    destruct (class_heap s !! ptr); [|done].
    destruct (set_property _ _ _ _); [|done..]. simpl.
    by intros [= <-].
  - unfold compile_class_done, vpip_peek_current_scope.
    destruct (current_scope s); [|done].
    destruct (compile_class s) as [ptr|]; [|done].
    destruct (class_heap s !! ptr); [|done].
    destruct (finish_setup _); [|done..]. simpl.
    by intros [= <-].
Qed.

Lemma run_compile_class calls : ∀ s s',
  run s calls = Ok s' →
  bool_decide (is_Some (compile_class s'))
  = open_after (bool_decide (is_Some (compile_class s))) calls.
Proof.
  induction calls as [|x calls IH]; intros s s'; simpl.
  - by intros [= <-].
  - destruct (step s x) as [s1| |] eqn:Hstep; [|done..]. simpl.
    intros Hrun. rewrite (IH _ _ Hrun). f_equal.
    by rewrite (step_compile_class _ _ _ Hstep).
Qed.

Lemma run_app calls1 calls2 s :
  run s (calls1 ++ calls2) = s' ← run s calls1; run s' calls2.
Proof.
  revert s. induction calls1 as [|x calls1 IH]; intros s; simpl; [done|].
  destruct (step s x); simpl; [apply IH|done|done].
Qed.

(** C8. After any sequence of protocol calls that ran, a build is open
    exactly when the last [class_start] has had no [class_done] since; a
    [class_start] issued then aborts, and one issued when no build is open
    runs and opens a build. *)
Theorem class_start_while_open_aborts scope calls s lab nam ntype :
  run (initial_state scope) calls = Ok s →
  (is_Some (compile_class s) ↔ build_open calls = true)
  ∧ (build_open calls = true →
     compile_class_start lab nam ntype s = Abort
     ∧ run (initial_state scope) (calls ++ [class_start lab nam ntype]) = Abort)
  ∧ (build_open calls = false →
     ∃ s', run (initial_state scope) (calls ++ [class_start lab nam ntype]) = Ok s'
           ∧ compile_class s' = Some (length (class_heap s))).
Proof.
  intros Hrun. pose proof (run_compile_class _ _ _ Hrun) as Hopen. simpl in Hopen.
  change (open_after false calls) with (build_open calls) in Hopen.
  split_and!.
  - rewrite <-Hopen. by rewrite bool_decide_eq_true.
  - intros Ho. rewrite Ho in Hopen. apply bool_decide_eq_true in Hopen as [ptr Hptr].
    assert (Hstart : compile_class_start lab nam ntype s = Abort).
    { unfold compile_class_start. rewrite Hptr.
      by rewrite bool_decide_eq_false_2. }
    split; [done|]. rewrite run_app, Hrun. simpl. by rewrite Hstart.
  - intros Ho. rewrite Ho in Hopen. apply bool_decide_eq_false in Hopen.
    assert (Hnone : compile_class s = None).
    { destruct (compile_class s); [|done]. destruct Hopen. by eexists. }
    rewrite run_app, Hrun. simpl. unfold compile_class_start. rewrite Hnone.
    rewrite bool_decide_eq_true_2 by done. simpl. by eexists.
Qed.

End ProtocolClaims.

(** ** Buffers: what a store changes and what a load sees *)

Lemma object_repr_length sz v : length (object_repr sz v) = N.to_nat sz.
Proof. unfold object_repr. by rewrite length_map, length_seq. Qed.

Lemma object_repr_lookup sz v j :
  (j < N.to_nat sz)%nat → object_repr sz v !! j = Some (Frag v j).
Proof.
  intros Hj. unfold object_repr.
  change (map ?f ?l) with (f <$> l).
  by rewrite list_lookup_fmap, lookup_seq_lt.
Qed.

Lemma store_Ok buf off sz v :
  (N.to_nat off + N.to_nat sz ≤ length buf)%nat →
  store buf off sz v
  = Ok (take (N.to_nat off) buf ++ object_repr sz v
        ++ drop (N.to_nat off + N.to_nat sz) buf).
Proof. intros Hin. unfold store. by rewrite bool_decide_eq_true_2. Qed.

Lemma store_inv buf off sz v buf' :
  store buf off sz v = Ok buf' →
  (N.to_nat off + N.to_nat sz ≤ length buf)%nat
  ∧ buf' = take (N.to_nat off) buf ++ object_repr sz v
           ++ drop (N.to_nat off + N.to_nat sz) buf.
Proof.
  unfold store. case_bool_decide; [|done]. intros [= <-]. done.
Qed.

Lemma store_length buf off sz v buf' :
  store buf off sz v = Ok buf' → length buf' = length buf.
Proof.
  intros [Hin ->]%store_inv.
  rewrite !length_app, length_take, length_drop, object_repr_length. lia.
Qed.

Lemma store_lookup_outside buf off sz v buf' i :
  store buf off sz v = Ok buf' →
  (i < N.to_nat off ∨ N.to_nat off + N.to_nat sz ≤ i)%nat →
  buf' !! i = buf !! i.
Proof.
  intros [Hin ->]%store_inv Hi.
  assert (Htake : length (take (N.to_nat off) buf) = N.to_nat off)
    by (rewrite length_take; lia).
  destruct Hi as [Hi|Hi].
  - rewrite lookup_app_l by lia. by apply lookup_take_lt.
  - rewrite lookup_app_r by lia. rewrite lookup_app_r
      by (rewrite object_repr_length; lia).
    rewrite lookup_drop, Htake, object_repr_length. f_equal. lia.
Qed.

Lemma store_lookup_inside buf off sz v buf' j :
  store buf off sz v = Ok buf' → (j < N.to_nat sz)%nat →
  buf' !! (N.to_nat off + j)%nat = Some (Frag v j).
Proof.
  intros [Hin ->]%store_inv Hj.
  assert (Htake : length (take (N.to_nat off) buf) = N.to_nat off)
    by (rewrite length_take; lia).
  rewrite lookup_app_r by lia. rewrite Htake.
  replace (N.to_nat off + j - N.to_nat off)%nat with j by lia.
  rewrite lookup_app_l by (rewrite object_repr_length; lia).
  by apply object_repr_lookup.
Qed.

(** A load sees only the bytes of the object it reads. *)
Lemma load_ext buf buf' off sz :
  0 < sz →
  (∀ j, (j < N.to_nat sz)%nat →
        buf' !! (N.to_nat off + j)%nat = buf !! (N.to_nat off + j)%nat) →
  load buf' off sz = load buf off sz.
Proof.
  intros Hsz Hsame. unfold load.
  assert (H0 : buf' !! N.to_nat off = buf !! N.to_nat off).
  { specialize (Hsame 0%nat). rewrite Nat.add_0_r in Hsame. apply Hsame. lia. }
  assert (Ht : take (N.to_nat sz) (drop (N.to_nat off) buf')
               = take (N.to_nat sz) (drop (N.to_nat off) buf)).
  { apply list_eq. intros j. destruct (decide (j < N.to_nat sz)%nat).
    - rewrite !lookup_take_lt, !lookup_drop by done. by apply Hsame.
    - by rewrite !lookup_take_ge by lia. }
  by rewrite H0, Ht.
Qed.

Lemma load_store_same buf off sz v buf' :
  0 < sz → store buf off sz v = Ok buf' → load buf' off sz = Ok v.
Proof.
  intros Hsz Hst. unfold load.
  pose proof (store_lookup_inside _ _ _ _ _ 0%nat Hst) as H0.
  rewrite Nat.add_0_r in H0. rewrite H0 by lia.
  rewrite bool_decide_eq_true_2; [done|].
  apply list_eq. intros j. destruct (decide (j < N.to_nat sz)%nat).
  - rewrite lookup_take_lt, lookup_drop by done.
    rewrite (store_lookup_inside _ _ _ _ _ j Hst) by done.
    by rewrite object_repr_lookup.
  - rewrite lookup_take_ge by lia. symmetry. apply lookup_ge_None.
    rewrite object_repr_length. lia.
Qed.

(** A store does not change what a load of bytes elsewhere sees. *)
Lemma load_store_other buf off sz v buf' off' sz' :
  0 < sz' → store buf off sz v = Ok buf' →
  off' + sz' ≤ off ∨ off + sz ≤ off' →
  load buf' off' sz' = load buf off' sz'.
Proof.
  intros Hsz Hst Hdis. apply load_ext; [done|]. intros j Hj.
  apply (store_lookup_outside _ _ _ _ _ _ Hst). lia.
Qed.

(** ** Integers and vectors *)

Lemma bits_of_0 wid : bits_of wid 0 = replicate wid BIT4_0.
Proof.
  unfold bits_of. generalize 0%nat.
  induction wid as [|wid IH]; intros k; simpl; [done|].
  by rewrite IH.
Qed.

Lemma bits_of_S wid n :
  bits_of (S wid) n = bit4_of_bool (N.testbit n 0) :: bits_of wid (n / 2).
Proof.
  unfold bits_of. simpl. f_equal. rewrite <-seq_shift, map_map.
  apply map_ext. intros i. f_equal.
  by rewrite Nat2N.inj_succ, N.div2_bits.
Qed.

Lemma bits_value_lt val : bits_value val < 2 ^ N.of_nat (length val).
Proof.
  induction val as [|b val IH]; [simpl; lia|].
  cbn [bits_value length]. rewrite Nat2N.inj_succ, N.pow_succ_r by lia.
  case_bool_decide; lia.
Qed.

(** A vector of 0 and 1 digits is the digits of its value. *)
Lemma bits_of_bits_value val :
  forallb bit4_concrete val = true → bits_of (length val) (bits_value val) = val.
Proof.
  induction val as [|b val IH]; [done|].
  cbn [forallb]. intros [Hb Hval]%andb_true_iff.
  cbn [length bits_value]. rewrite bits_of_S.
  assert (Hd : ((if bool_decide (b = BIT4_1) then 1 else 0)
                + 2 * bits_value val) / 2 = bits_value val).
  { rewrite N.add_comm, (N.mul_comm 2), N.div_add_l by lia.
    case_bool_decide; [change (1 / 2) with 0|change (0 / 2) with 0]; lia. }
  rewrite Hd, IH by done. f_equal.
  destruct b; try done; case_bool_decide; try done.
  - rewrite N.add_0_l. by rewrite N.testbit_even_0.
  - rewrite N.add_comm. by rewrite N.testbit_odd_0.
Qed.

Section Vec4.
Context `{Platform}.

Lemma atom_value_testbit T n i :
  i < 8 * sizeof_atom T →
  Z.testbit (Property.atom_value T n) (Z.of_N i) = N.testbit n i.
Proof.
  intros Hi. unfold Property.atom_value.
  destruct (atom_signed T && _).
  - rewrite <-(Z.mod_pow2_bits_low _ (Z.of_N (8 * sizeof_atom T))) by lia.
    replace (Z.of_N n - 2 ^ Z.of_N (8 * sizeof_atom T))%Z
      with (Z.of_N n + (-1) * 2 ^ Z.of_N (8 * sizeof_atom T))%Z by lia.
    rewrite Z_mod_plus_full, Z.mod_pow2_bits_low by lia.
    apply Z.testbit_of_N.
  - apply Z.testbit_of_N.
Qed.

Lemma to_ulong_testbit z j :
  j < 8 * sizeof_ulong →
  N.testbit (Property.to_ulong z) j = Z.testbit z (Z.of_N j).
Proof.
  intros Hj. unfold Property.to_ulong.
  rewrite <-Z.testbit_of_N, Z2N.id.
  - apply Z.mod_pow2_bits_low. lia.
  - apply Z.mod_pos_bound. apply Z.pow_pos_nonneg; lia.
Qed.

Lemma word_array_bit_chunks v cnt i :
  N.of_nat i / (8 * sizeof_ulong) < N.of_nat cnt →
  word_array_bit (8 * sizeof_ulong) (map (ulong_chunk v) (seq 0 cnt)) i
  = Z.testbit v (Z.of_nat i).
Proof.
  intros Hi. unfold word_array_bit.
  assert (HW : 0 < 8 * sizeof_ulong)
    by (destruct sizeof_ulong_cases as [-> | ->]; lia).
  set (W := 8 * sizeof_ulong) in *.
  assert (HWdef : W = 8 * sizeof_ulong) by done.
  set (k := N.to_nat (N.of_nat i / W)).
  assert (Hk : map (ulong_chunk v) (seq 0 cnt) !! k = Some (ulong_chunk v k)).
  { change (map ?f ?l) with (f <$> l).
    rewrite list_lookup_fmap, lookup_seq_lt by lia. done. }
  rewrite (nth_lookup_Some _ _ _ _ Hk). unfold ulong_chunk.
  pose proof (N.mod_lt (N.of_nat i) W) as Hmod.
  rewrite to_ulong_testbit by (fold W; lia).
  rewrite Z.shiftr_spec by apply N2Z.is_nonneg. f_equal.
  pose proof (N.div_mod (N.of_nat i) W) as Hdm.
  assert (Hk' : Z.of_nat k = Z.of_N (N.of_nat i / W)) by (unfold k; lia).
  rewrite Hk'. clearbody W. clear Hk Hk' k.
  assert (HW' : W ≠ 0) by lia. specialize (Hdm HW').
  replace (Z.of_N (N.of_nat i / W) * 8 * Z.of_N sizeof_ulong)%Z
    with (Z.of_N (W * (N.of_nat i / W))) by (subst W; lia).
  lia.
Qed.

(** [get_vec4] on an integer slot gives the digits of the bit pattern the
    slot holds. *)
Lemma get_vec4_bits T off buf val n :
  Property.load_atom buf off (sizeof_atom T) = Ok n →
  Property.get_vec4 {| kind := property_atom T; offset_ := Some off |} buf val
  = Ok (bits_of (N.to_nat (8 * sizeof_atom T)) n).
Proof.
  intros Hload. unfold Property.get_vec4. simpl. rewrite Hload. simpl.
  f_equal. unfold vec4_setarray, vec4_resize. rewrite length_resize, take_0.
  rewrite drop_ge by (rewrite length_resize; lia).
  rewrite (right_id_L [] (++)). simpl. unfold bits_of.
  set (v := Property.atom_value T n).
  set (cnt := if sizeof_atom T <? sizeof_ulong then 1
              else sizeof_atom T / sizeof_ulong).
  assert (Hcnt : ∃ m, N.to_nat cnt = S m ∧
            ∀ i, (i < N.to_nat (8 * sizeof_atom T))%nat →
                 N.of_nat i / (8 * sizeof_ulong) < N.of_nat (S m)).
  { unfold cnt. destruct sizeof_ulong_cases as [-> | ->]; destruct T; simpl;
      first [ exists 0%nat; split; [reflexivity|];
              intros i Hi; apply N.Div0.div_lt_upper_bound; lia
            | exists 1%nat; split; [reflexivity|];
              intros i Hi; apply N.Div0.div_lt_upper_bound; lia ]. }
  destruct Hcnt as (m & Hm & Hidx). rewrite Hm. simpl. rewrite Nat.sub_0_r.
  assert (Htmp : Property.to_ulong v
                 :: map (fun idx => Property.to_ulong
                           (Z.shiftr v (Z.of_nat idx * 8 * Z.of_N sizeof_ulong)))
                        (seq 1 m)
                 = map (ulong_chunk v) (seq 0 (S m))).
  { simpl. f_equal. }
  rewrite Htmp. apply map_ext_in. intros i Hi. apply in_seq in Hi. f_equal.
  rewrite word_array_bit_chunks by (apply Hidx; lia).
  rewrite <-nat_N_Z. apply atom_value_testbit. lia.
Qed.

End Vec4.

(** ** Slots of a frozen class *)

Section FrozenSlots.
Context `{Platform}.

Lemma property_at_inv c pid p :
  property_at c pid = Ok p →
  ∃ pi, properties_ c !! pid = Some pi ∧ type pi = Some p.
Proof.
  unfold property_at. destruct (assert _); [|done..]. simpl.
  destruct (properties_ c !! pid) as [pi|]; [|done].
  destruct (type pi) as [p'|] eqn:Ht; [|done]. intros [= ->]. by exists pi.
Qed.

Lemma property_at_lookup c pid pi p :
  properties_ c !! pid = Some pi → type pi = Some p → property_at c pid = Ok p.
Proof.
  intros Hpi Hp. unfold property_at.
  rewrite bool_decide_eq_true_2 by (by eapply lookup_lt_Some). simpl.
  by rewrite Hpi, Hp.
Qed.

Lemma property_at_out_of_range {c pid} :
  properties_ c !! pid = None → property_at c pid = Abort.
Proof.
  intros Hn. unfold property_at.
  rewrite bool_decide_eq_false_2; [done|]. apply lookup_ge_None in Hn. lia.
Qed.

(** Where the slots of a laid-out class are. *)
Lemma laid_out_property_at c pid p :
  resolved (properties_ c) → fits_size_t (properties_ c) →
  property_at (laid_out c) pid = Ok p →
  (pid < length (properties_ c))%nat
  ∧ offset_ p = Some (layout_offset (slot_sizes (properties_ c)) pid)
  ∧ kind_size (kind p) = nth pid (slot_sizes (properties_ c)) 0.
Proof.
  intros Hres Hfits (pi' & Hpi' & Hp)%property_at_inv.
  pose proof (lookup_lt_Some _ _ _ Hpi') as Hlt. rewrite laid_out_length in Hlt.
  destruct (resolved_lookup _ _ Hres Hlt) as (pi & t & Hpi & Ht).
  rewrite (laid_out_slot _ _ _ _ Hfits Hpi Ht) in Hpi'.
  injection Hpi' as <-. simpl in Hp. injection Hp as <-. simpl.
  split_and!; [done|done|].
  rewrite (slot_sizes_nth _ _ _ Hpi). unfold slot_size. by rewrite Ht.
Qed.

Lemma frozen_offset c pid p :
  frozen c → property_at c pid = Ok p → ∃ off, offset_ p = Some off.
Proof.
  intros (c0 & Hres & Hfits & ->)%frozen_laid_out Hp.
  destruct (laid_out_property_at _ _ _ Hres Hfits Hp) as (_ & Hoff & _).
  by eexists.
Qed.

(** A slot of a frozen class lies inside the instance and is not empty. *)
Lemma frozen_slot_inside c pid k off :
  frozen c → property_at c pid = Ok {| kind := k; offset_ := Some off |} →
  off + kind_size k ≤ instance_size_ c ∧ 0 < kind_size k.
Proof.
  intros (c0 & Hres & Hfits & ->)%frozen_laid_out Hp.
  destruct (laid_out_property_at _ _ _ Hres Hfits Hp) as (Hlt & Hoff & Hsz).
  simpl in Hoff, Hsz. injection Hoff as ->. rewrite Hsz.
  pose proof (layout_offset_end (slot_sizes (properties_ c0)) pid) as Hend.
  rewrite slot_sizes_length in Hend. specialize (Hend Hlt).
  pose proof (slot_sizes_pos _ _ Hres Hlt).
  split; [|done]. simpl. rewrite size_t_wrap_small by done. done.
Qed.

(** Two slots of a frozen class do not share a byte. *)
Lemma frozen_slots_apart c p q kp kq off_p off_q :
  frozen c → p ≠ q →
  property_at c p = Ok {| kind := kp; offset_ := Some off_p |} →
  property_at c q = Ok {| kind := kq; offset_ := Some off_q |} →
  off_p + kind_size kp ≤ off_q ∨ off_q + kind_size kq ≤ off_p.
Proof.
  intros (c0 & Hres & Hfits & ->)%frozen_laid_out Hpq Hp Hq.
  destruct (laid_out_property_at _ _ _ Hres Hfits Hp) as (Hltp & Hoffp & Hszp).
  destruct (laid_out_property_at _ _ _ Hres Hfits Hq) as (Hltq & Hoffq & Hszq).
  simpl in *. injection Hoffp as ->. injection Hoffq as ->.
  rewrite Hszp, Hszq. set (sizes := slot_sizes (properties_ c0)).
  assert (Hlen : length sizes = length (properties_ c0)) by apply slot_sizes_length.
  destruct (placed_before_total sizes p q Hpq) as [Hb|Hb].
  - left. apply layout_offset_before; [lia|done].
  - right. apply layout_offset_before; [lia|done].
Qed.

Lemma frozen_slot_kind c pid k :
  frozen c → slot_kind c pid = Some k →
  ∃ off, property_at c pid = Ok {| kind := k; offset_ := Some off |}.
Proof.
  intros Hfr Hk. destruct (property_at_kind _ _ _ Hk) as ([k' o] & Hp & Hkind).
  simpl in Hkind. subst k'.
  destruct (frozen_offset _ _ _ Hfr Hp) as [off Hoff]. simpl in Hoff. subst o.
  by exists off.
Qed.

Lemma frozen_lookup c pid pi :
  frozen c → properties_ c !! pid = Some pi →
  ∃ k off, type pi = Some {| kind := k; offset_ := Some off |}.
Proof.
  intros Hfr Hpi.
  destruct (frozen_laid_out _ Hfr) as (c0 & Hres & Hfits & ->).
  pose proof (lookup_lt_Some _ _ _ Hpi) as Hlt. rewrite laid_out_length in Hlt.
  destruct (resolved_lookup _ _ Hres Hlt) as (pi0 & t & Hpi0 & Ht).
  rewrite (laid_out_slot _ _ _ _ Hfits Hpi0 Ht) in Hpi. injection Hpi as <-.
  by eexists _, _.
Qed.

End FrozenSlots.

(** ** Instances *)

Section InstanceClaims.
Context `{Platform}.

Lemma construct_store k off buf :
  Property.construct {| kind := k; offset_ := Some off |} buf
  = store buf off (kind_size k) (initial_value k).
Proof. by destruct k. Qed.

Lemma call_get_load c obj pid k off v r val :
  property_at c pid = Ok {| kind := k; offset_ := Some off |} →
  load obj off (kind_size k) = Ok v → reading_of k v = Some r →
  call_get c obj pid (getter_of k val) = Ok r.
Proof.
  intros Hp Hload Hr. destruct k as [T| | |]; destruct v; try done;
    simpl in Hr; injection Hr as <-; simpl.
  - unfold get_vec4. rewrite Hp. simpl.
    rewrite (get_vec4_bits _ _ _ _ n); [done|].
    unfold Property.load_atom.
    change (sizeof_atom T) with (kind_size (property_atom T)). by rewrite Hload.
  - unfold get_real. rewrite Hp. simpl.
    unfold Property.get_real, Property.load_real. simpl.
    change 8 with (kind_size property_real). by rewrite Hload.
  - unfold get_string. rewrite Hp. simpl.
    unfold Property.get_string, Property.load_string. simpl.
    change sizeof_string with (kind_size property_string). by rewrite Hload.
  - unfold get_object. rewrite Hp. simpl.
    unfold Property.get_object, Property.load_object. simpl.
    change sizeof_object with (kind_size property_object). by rewrite Hload.
Qed.

Lemma reading_of_initial k : reading_of k (initial_value k) = Some (initial_reading k).
Proof. destruct k; simpl; [|done..]. by rewrite bits_of_0. Qed.

(** The constructors run over the slots from some index on: the slots before
    it read as they did, the others read their initial value. *)
Lemma construct_all_frozen c :
  frozen c → ∀ rest pre buf,
  properties_ c = pre ++ rest →
  length buf = N.to_nat (instance_size_ c) →
  ∃ buf', construct_all rest buf = Ok buf'
    ∧ length buf' = length buf
    ∧ (∀ i k off, property_at c i = Ok {| kind := k; offset_ := Some off |} →
         (i < length pre)%nat →
         load buf' off (kind_size k) = load buf off (kind_size k))
    ∧ (∀ i k off, property_at c i = Ok {| kind := k; offset_ := Some off |} →
         (length pre ≤ i)%nat →
         load buf' off (kind_size k) = Ok (initial_value k)).
Proof.
  intros Hfr. induction rest as [|pi rest IH]; intros pre buf Hsplit Hlen.
  - exists buf. split_and!; [done..|].
    intros i k off (pi & Hpi & _)%property_at_inv Hi.
    apply lookup_lt_Some in Hpi.
    rewrite Hsplit, (right_id_L [] (++)) in Hpi. lia.
  - assert (Hpi : properties_ c !! length pre = Some pi)
      by (by rewrite Hsplit, list_lookup_middle).
    destruct (frozen_lookup _ _ _ Hfr Hpi) as (k0 & off0 & Ht0).
    pose proof (property_at_lookup _ _ _ _ Hpi Ht0) as Hp0.
    destruct (frozen_slot_inside _ _ _ _ Hfr Hp0) as [Hin0 Hpos0].
    simpl. rewrite Ht0, construct_store.
    assert (Hst : ∃ buf1, store buf off0 (kind_size k0) (initial_value k0) = Ok buf1)
      by (eexists; apply store_Ok; lia).
    destruct Hst as [buf1 Hst]. rewrite Hst. simpl.
    pose proof (store_length _ _ _ _ _ Hst) as Hlen1.
    destruct (IH (pre ++ [pi]) buf1) as (buf' & Hrun & Hlen' & Hold & Hnew).
    { by rewrite <-(assoc_L (++)). }
    { lia. }
    rewrite length_app in Hold, Hnew. simpl in Hold, Hnew.
    exists buf'. split_and!; [done|lia| |].
    + intros i k off Hp Hi. rewrite (Hold i k off Hp) by lia.
      destruct (frozen_slot_inside _ _ _ _ Hfr Hp) as [_ Hpos].
      apply (load_store_other _ _ _ _ _ _ _ Hpos Hst).
      apply (frozen_slots_apart c i (length pre)); [done|lia|done|done].
    + intros i k off Hp Hi. destruct (decide (i = length pre)) as [->|Hne].
      * rewrite Hp in Hp0. injection Hp0 as <- <-.
        rewrite (Hold _ _ _ Hp) by lia.
        apply (load_store_same _ _ _ _ _ Hpos0 Hst).
      * apply (Hnew i k off Hp). lia.
Qed.

(** C9. [instance_new] on a frozen class returns a buffer of
    [instance_size_] bytes, made by running the constructors of the slots in
    declaration order over a fresh buffer; every slot then reads its initial
    value through the getter of its kind: all digits 0 for an integer slot,
    0 for a real slot, the empty string for a string slot (and the nil handle
    for an object slot). *)
Theorem instance_new_initial_values c :
  frozen c →
  ∃ buf, instance_new c = Ok buf
    ∧ instance_new c
      = construct_all (properties_ c)
          (replicate (N.to_nat (instance_size_ c)) Indeterminate)
    ∧ length buf = N.to_nat (instance_size_ c)
    ∧ ∀ pid k val, slot_kind c pid = Some k →
        call_get c buf pid (getter_of k val) = Ok (initial_reading k).
Proof.
  intros Hfr.
  destruct (construct_all_frozen c Hfr (properties_ c) []
              (replicate (N.to_nat (instance_size_ c)) Indeterminate))
    as (buf & Hrun & Hlen & _ & Hnew); [done|apply length_replicate|].
  exists buf. split_and!; [done|done| |].
  - by rewrite Hlen, length_replicate.
  - intros pid k val Hk.
    destruct (frozen_slot_kind _ _ _ Hfr Hk) as (off & Hp).
    apply (call_get_load _ _ _ _ off (initial_value k)); [done| |].
    + apply (Hnew pid); [done|simpl; lia].
    + apply reading_of_initial.
Qed.

Lemma vector4_to_value_concrete bits val :
  forallb bit4_concrete val = true →
  vector4_to_value bits val = Some (bits_value val mod 2 ^ bits).
Proof. intros Hc. unfold vector4_to_value. by rewrite Hc. Qed.

(** C4, for vectors as wide as the slot. On a [UInt32] slot of a frozen
    class, [set_vec4] with a vector of 32 digits that are all 0 or 1 returns,
    and [get_vec4] on the same slot then gives that vector. *)
Theorem uint32_vec4_round_trip c obj pid val :
  frozen c → slot_kind c pid = Some (property_atom uint32_t) →
  length obj = N.to_nat (instance_size_ c) →
  length val = 32%nat → forallb bit4_concrete val = true →
  ∃ obj', set_vec4 c obj pid val = Ok obj'
          ∧ ∀ val0, get_vec4 c obj' pid val0 = Ok val.
Proof.
  intros Hfr Hk Hlen Hwid Hc.
  destruct (frozen_slot_kind _ _ _ Hfr Hk) as (off & Hp).
  destruct (frozen_slot_inside _ _ _ _ Hfr Hp) as [Hin Hpos].
  change (kind_size (property_atom uint32_t)) with 4 in Hin, Hpos.
  pose proof (bits_value_lt val) as Hlt. rewrite Hwid in Hlt.
  assert (Hst : ∃ obj', store obj off 4 (Vatom (bits_value val)) = Ok obj').
  { eexists. apply store_Ok. lia. }
  destruct Hst as [obj' Hst]. exists obj'. split.
  - unfold set_vec4. rewrite Hp. simpl. unfold Property.set_vec4. simpl.
    rewrite (vector4_to_value_concrete _ _ Hc). simpl.
    rewrite N.mod_small by exact Hlt. by rewrite Hst.
  - intros val0. unfold get_vec4. rewrite Hp. simpl.
    rewrite (get_vec4_bits _ _ _ _ (bits_value val)).
    + f_equal. change (N.to_nat (8 * sizeof_atom uint32_t)) with 32%nat.
      rewrite <-Hwid. by apply bits_of_bits_value.
    + unfold Property.load_atom. simpl.
      by rewrite (load_store_same _ _ _ _ _ Hpos Hst).
Qed.

(** A setter that returns has stored a value in its slot. *)
Lemma call_set_store c obj pid k off s obj' :
  property_at c pid = Ok {| kind := k; offset_ := Some off |} →
  call_set c obj pid s = Ok obj' →
  ∃ v, store obj off (kind_size k) v = Ok obj'.
Proof.
  intros Hp. destruct s as [val|val|val|val]; simpl;
    [unfold set_vec4|unfold set_real|unfold set_string|unfold set_object];
    rewrite Hp; simpl;
    [unfold Property.set_vec4|unfold Property.set_real
    |unfold Property.set_string|unfold Property.set_object];
    destruct k as [T| | |]; simpl; try done.
  - destruct (vector4_to_value _ val) as [n|]; simpl; [|done].
    destruct (store obj off (sizeof_atom T) (Vatom n)) as [b| |] eqn:Hst;
      simpl; [|done..].
    intros [= <-]. by exists (Vatom n).
  - intros Hst. by exists (Vreal val).
  - destruct (Property.load_string obj off); simpl; [|done..].
    intros Hst. by exists (Vstring val).
  - destruct (Property.load_object obj off); simpl; [|done..].
    intros Hst. by exists (Vobject val).
Qed.

(** A getter sees only the bytes of its slot. *)
Lemma call_get_ext c obj obj' pid k off g :
  property_at c pid = Ok {| kind := k; offset_ := Some off |} →
  load obj' off (kind_size k) = load obj off (kind_size k) →
  call_get c obj' pid g = call_get c obj pid g.
Proof.
  intros Hp Hload. destruct g; simpl;
    [unfold get_vec4|unfold get_real|unfold get_string|unfold get_object];
    rewrite Hp; simpl;
    [unfold Property.get_vec4, Property.load_atom
    |unfold Property.get_real, Property.load_real
    |unfold Property.get_string, Property.load_string
    |unfold Property.get_object, Property.load_object];
    destruct k as [T| | |]; simpl; try done;
    unfold kind_size, instance_size in Hload; simpl in Hload;
    by rewrite Hload.
Qed.

(** C10. On a frozen class, a setter that returns leaves the buffer as long
    as it was and changes no byte outside the range of its slot; every getter
    on every other property id gives what it gave before. *)
Theorem setter_frame c obj pid s obj' :
  frozen c → call_set c obj pid s = Ok obj' →
  ∃ off sz, slot_range c pid = Some (off, sz)
    ∧ length obj' = length obj
    ∧ (∀ i, (i < N.to_nat off ∨ N.to_nat (off + sz) ≤ i)%nat →
            obj' !! i = obj !! i)
    ∧ (∀ q g, q ≠ pid → call_get c obj' q g = call_get c obj q g).
Proof.
  intros Hfr Hset.
  assert (Hp : ∃ p, property_at c pid = Ok p).
  { destruct s; simpl in Hset;
      [unfold set_vec4 in Hset|unfold set_real in Hset
      |unfold set_string in Hset|unfold set_object in Hset];
      destruct (property_at c pid) as [p| |]; try done; by exists p. }
  destruct Hp as [[k o] Hp].
  destruct (frozen_offset _ _ _ Hfr Hp) as [off Hoff]. simpl in Hoff. subst o.
  destruct (call_set_store _ _ _ _ _ _ _ Hp Hset) as [v Hst].
  exists off, (kind_size k). split_and!.
  - destruct (property_at_inv _ _ _ Hp) as (pi & Hpi & Ht).
    unfold slot_range. rewrite Hpi. simpl. by rewrite Ht.
  - by eapply store_length.
  - intros i Hi. apply (store_lookup_outside _ _ _ _ _ _ Hst). lia.
  - intros q g Hq.
    destruct (properties_ c !! q) as [pi|] eqn:Hpi.
    + destruct (frozen_lookup _ _ _ Hfr Hpi) as (kq & off_q & Htq).
      pose proof (property_at_lookup _ _ _ _ Hpi Htq) as Hpq.
      apply (call_get_ext _ _ _ _ _ _ _ Hpq).
      destruct (frozen_slot_inside _ _ _ _ Hfr Hpq) as [_ Hpos].
      apply (load_store_other _ _ _ _ _ _ _ Hpos Hst).
      by apply (frozen_slots_apart c q pid).
    + pose proof (property_at_out_of_range Hpi) as Hab.
      destruct g; simpl;
        [unfold get_vec4|unfold get_real|unfold get_string|unfold get_object];
        by rewrite Hab.
Qed.

End InstanceClaims.

(** ** Setters on instances *)

Section LiveInstances.
Context `{Platform}.

Lemma holds_kind_initial k : holds_kind k (initial_value k) = true.
Proof. by destruct k. Qed.

(** [instance_new] on a frozen class makes an instance. *)
Lemma instance_new_live c buf :
  frozen c → instance_new c = Ok buf → live_instance c buf.
Proof.
  intros Hfr Hnew.
  destruct (construct_all_frozen c Hfr (properties_ c) []
              (replicate (N.to_nat (instance_size_ c)) Indeterminate))
    as (buf' & Hrun & Hlen & _ & Hinit); [done|apply length_replicate|].
  unfold instance_new in Hnew. rewrite Hrun in Hnew. injection Hnew as <-.
  split.
  - by rewrite Hlen, length_replicate.
  - intros pid k off Hp. exists (initial_value k). split.
    + apply (Hinit pid); [done|simpl; lia].
    + apply holds_kind_initial.
Qed.

Lemma live_load_string c obj pid off :
  live_instance c obj →
  property_at c pid = Ok {| kind := property_string; offset_ := Some off |} →
  ∃ s, Property.load_string obj off = Ok s.
Proof.
  intros [_ Hlive] Hp. destruct (Hlive _ _ _ Hp) as (v & Hload & Hv).
  destruct v as [| |s|]; try done. exists s.
  unfold Property.load_string.
  change sizeof_string with (kind_size property_string). by rewrite Hload.
Qed.

Lemma live_load_object c obj pid off :
  live_instance c obj →
  property_at c pid = Ok {| kind := property_object; offset_ := Some off |} →
  ∃ o, Property.load_object obj off = Ok o.
Proof.
  intros [_ Hlive] Hp. destruct (Hlive _ _ _ Hp) as (v & Hload & Hv).
  destruct v as [| | |o]; try done. exists o.
  unfold Property.load_object.
  change sizeof_object with (kind_size property_object). by rewrite Hload.
Qed.

(** On an instance of a frozen class, a setter of the slot's kind returns
    ([set_vec4]: for a vector of 0 and 1 digits), and what it returns is an
    instance again. *)
Lemma setter_returns c obj pid k s :
  frozen c → live_instance c obj →
  slot_kind c pid = Some k → supports_set k s = true →
  (∀ val, s = SetVec4 val → forallb bit4_concrete val = true) →
  ∃ obj', call_set c obj pid s = Ok obj' ∧ live_instance c obj'.
Proof.
  intros Hfr Hlive Hk Hs Hval.
  destruct (frozen_slot_kind _ _ _ Hfr Hk) as (off & Hp).
  destruct (frozen_slot_inside _ _ _ _ Hfr Hp) as [Hin Hpos].
  pose proof Hlive as [Hlen Hslots].
  assert (Hst : ∀ v, ∃ obj', store obj off (kind_size k) v = Ok obj').
  { intros v. eexists. apply store_Ok. lia. }
  assert (Hset : ∃ v obj', holds_kind k v = true
            ∧ store obj off (kind_size k) v = Ok obj'
            ∧ call_set c obj pid s = Ok obj').
  { destruct s as [val|val|val|val]; destruct k as [T| | |]; try done; simpl.
    - destruct (Hst (Vatom (bits_value val mod 2 ^ (8 * sizeof_atom T))))
        as [obj' Hobj']. eexists _, obj'. split_and!; [|done|]; [done|].
      unfold set_vec4. rewrite Hp. simpl. unfold Property.set_vec4. simpl.
      rewrite (vector4_to_value_concrete _ _ (Hval val eq_refl)). simpl.
      change (kind_size (property_atom T)) with (sizeof_atom T) in Hobj'.
      by rewrite Hobj'.
    - destruct (Hst (Vreal val)) as [obj' Hobj'].
      eexists _, obj'. split_and!; [|done|]; [done|].
      unfold set_real. rewrite Hp. done.
    - destruct (Hst (Vstring val)) as [obj' Hobj'].
      eexists _, obj'. split_and!; [|done|]; [done|].
      destruct (live_load_string _ _ _ _ Hlive Hp) as [s0 Hs0].
      unfold set_string. rewrite Hp. simpl. unfold Property.set_string. simpl.
      rewrite Hs0. done.
    - destruct (Hst (Vobject val)) as [obj' Hobj'].
      eexists _, obj'. split_and!; [|done|]; [done|].
      destruct (live_load_object _ _ _ _ Hlive Hp) as [o0 Ho0].
      unfold set_object. rewrite Hp. simpl. unfold Property.set_object. simpl.
      rewrite Ho0. done. }
  destruct Hset as (v & obj' & Hv & Hstore & Hcall).
  exists obj'. split; [done|]. split.
  - rewrite (store_length _ _ _ _ _ Hstore). done.
  - intros q kq off_q Hq. destruct (decide (q = pid)) as [->|Hne].
    + rewrite Hp in Hq. injection Hq as <- <-. exists v. split; [|done].
      by apply (load_store_same _ _ _ _ _ Hpos Hstore).
    + destruct (Hslots _ _ _ Hq) as (vq & Hload & Hvq). exists vq. split; [|done].
      destruct (frozen_slot_inside _ _ _ _ Hfr Hq) as [_ Hposq].
      rewrite (load_store_other _ _ _ _ _ _ _ Hposq Hstore); [done|].
      by apply (frozen_slots_apart c q pid).
Qed.

End LiveInstances.

(** ** The claims at sample inputs, on [lp64] *)

Section Checks.
#[local] Existing Instance lp64.

(** A class is frozen: it is what [finish_setup] makes of the given one. *)
Ltac frozen_from c :=
  exists c; split_and!;
  [ repeat econstructor | vm_compute; reflexivity | vm_compute; reflexivity ].

(** C1 at the class the three declarations build, and at the sample class. *)
Lemma finish_setup_layout_order_witness :
  (∃ c3, declared_8_64_32 = Ok c3
     ∧ ∃ c', finish_setup c3 = Ok c'
         ∧ slot_offset c' 1 = Some 0
         ∧ slot_offset c' 2 = Some 8
         ∧ slot_offset c' 0 = Some 12
         ∧ instance_size_ c' = 13)
  ∧ (∃ c', finish_setup sample_decl = Ok c'
       ∧ ∀ pid, (pid < length (properties_ sample_decl))%nat →
           slot_offset c' pid
           = Some (layout_offset (slot_sizes (properties_ sample_decl)) pid)).
Proof.
  pose proof (@finish_setup_layout_order lp64) as [Hthree Hall]. split.
  - eexists. split; [vm_compute; reflexivity|].
    apply Hthree. reflexivity.
  - apply Hall.
    + repeat econstructor.
    + vm_compute. reflexivity.
Defined.

(** C2 at the sample class: 1 + 32 + 4 + 8 + 8 + 4 bytes. *)
Lemma finish_setup_instance_size_witness :
  ∃ c', finish_setup sample_decl = Ok c'
    ∧ instance_size_ c' = size_t_wrap (N_sum (slot_sizes (properties_ sample_decl)))
    ∧ (fits_size_t (properties_ sample_decl) →
       instance_size_ c' = N_sum (slot_sizes (properties_ sample_decl))).
Proof.
  apply (finish_setup_instance_size sample_decl). repeat econstructor.
Defined.

(** C3 at the sample class. *)
Lemma finish_setup_slots_disjoint_witness :
  ∃ c', finish_setup sample_decl = Ok c'
    ∧ (∀ p, (p < length (properties_ sample_decl))%nat →
         ∃ off sz, slot_range c' p = Some (off, sz)
                   ∧ off < instance_size_ c'
                   ∧ off + sz ≤ instance_size_ c')
    ∧ (∀ p q off_p sz_p off_q sz_q,
         p ≠ q →
         slot_range c' p = Some (off_p, sz_p) →
         slot_range c' q = Some (off_q, sz_q) →
         off_p ≠ off_q ∧ (off_p + sz_p ≤ off_q ∨ off_q + sz_q ≤ off_p)).
Proof.
  apply (finish_setup_slots_disjoint sample_decl).
  - repeat econstructor.
  - vm_compute. reflexivity.
Defined.

(** C4 at the 32 digits of 0xDEADBEEF. *)
Lemma uint32_vec4_round_trip_witness :
  ∃ obj', set_vec4 word_class (replicate 4 Indeterminate) 0 sample_word = Ok obj'
          ∧ ∀ val0, get_vec4 word_class obj' 0 val0 = Ok sample_word.
Proof.
  apply (uint32_vec4_round_trip word_class (replicate 4 Indeterminate) 0
           sample_word).
  - frozen_from word_decl.
  - reflexivity.
  - reflexivity.
  - reflexivity.
  - reflexivity.
Defined.

(** C4 does not hold for a vector that is not 32 digits wide. The one-digit
    vector 1, set in a [UInt32] slot, reads back as 32 digits; the vector of
    33 digits with only its last digit 1 reads back as 32 digits 0, of
    another value. *)
Lemma uint32_vec4_round_trip_counterexample :
  frozen word_class
  ∧ slot_kind word_class 0 = Some (property_atom uint32_t)
  ∧ ∃ obj, instance_new word_class = Ok obj
    ∧ (forallb bit4_concrete [BIT4_1] = true
       ∧ ∃ obj' r,
           set_vec4 word_class obj 0 [BIT4_1] = Ok obj'
           ∧ get_vec4 word_class obj' 0 [] = Ok r
           ∧ r = BIT4_1 :: replicate 31 BIT4_0
           ∧ r ≠ [BIT4_1])
    ∧ (forallb bit4_concrete (replicate 32 BIT4_0 ++ [BIT4_1]) = true
       ∧ ∃ obj' r,
           set_vec4 word_class obj 0 (replicate 32 BIT4_0 ++ [BIT4_1]) = Ok obj'
           ∧ get_vec4 word_class obj' 0 [] = Ok r
           ∧ r = replicate 32 BIT4_0
           ∧ r ≠ replicate 32 BIT4_0 ++ [BIT4_1]
           ∧ bits_value r ≠ bits_value (replicate 32 BIT4_0 ++ [BIT4_1])).
Proof.
  split_and!; [frozen_from word_decl|reflexivity|].
  eexists. split; [vm_compute; reflexivity|]. split.
  - split; [reflexivity|]. eexists _, _. split_and!.
    + vm_compute. reflexivity.
    + vm_compute. reflexivity.
    + reflexivity.
    + discriminate.
  - split; [reflexivity|]. eexists _, _. split_and!.
    + vm_compute. reflexivity.
    + vm_compute. reflexivity.
    + reflexivity.
    + discriminate.
    + vm_compute. discriminate.
Qed.

(** C5 at a vector with an X digit, on the [UInt32] slot of the sample
    class. *)
Lemma set_vec4_undefined_digit_aborts_witness :
  set_vec4 sample_class (replicate 57 Indeterminate) 2 [BIT4_1; BIT4_X] = Abort.
Proof.
  apply (set_vec4_undefined_digit_aborts sample_class _ 2 uint32_t
           [BIT4_1; BIT4_X] BIT4_X).
  - frozen_from sample_decl.
  - reflexivity.
  - repeat constructor.
  - left. reflexivity.
Defined.

(** C6: [get_real] on the [UInt8] slot and [get_vec4] on the string slot of
    the sample class. *)
Lemma unsupported_accessor_aborts_witness :
  call_get sample_class (replicate 57 Indeterminate) 0 GetReal = Abort
  ∧ call_get sample_class (replicate 57 Indeterminate) 1 (GetVec4 []) = Abort.
Proof.
  split.
  - apply (unsupported_accessor_aborts sample_class _ 0 (property_atom uint8_t));
      reflexivity.
  - apply (unsupported_accessor_aborts sample_class _ 1 property_string);
      reflexivity.
Defined.

(** C7 at the tag [q8]. *)
Lemma unknown_tag_deferred_to_freeze_witness :
  (∃ c1, set_property 1 "n" "q8" sample_decl = Ok c1
         ∧ properties_ c1 !! 1%nat = Some {| name := "n"; type := None |}
         ∧ slot_kind c1 1 = None
         ∧ finish_setup c1 = Abort)
  ∧ (∀ c2 pid pi, properties_ c2 !! pid = Some pi → type pi = None →
       finish_setup c2 = Abort).
Proof.
  apply (unknown_tag_deferred_to_freeze 1 "n" "q8" sample_decl).
  - apply (bool_decide_unpack ("q8" ∉ recognized_tags)). vm_compute. exact I.
  - vm_compute. lia.
Defined.

(** C8 after one finished build and the start of a second one. *)
Lemma class_start_while_open_aborts_witness :
  ∃ s, run (initial_state (Some ∅))
           [class_start "L1" "C" 1; class_property 0 "a" "b8"; class_done;
            class_start "L2" "D" 0] = Ok s
    ∧ compile_class_start "L3" "E" 0 s = Abort.
Proof.
  eexists. split.
  - vm_compute. reflexivity.
  - refine (proj1 (proj1 (proj2 (class_start_while_open_aborts (Some ∅)
              [class_start "L1" "C" 1; class_property 0 "a" "b8"; class_done;
               class_start "L2" "D" 0] _ "L3" "E" 0 _)) _)).
    + vm_compute. reflexivity.
    + reflexivity.
Defined.

(** C9 at the sample class. *)
Lemma instance_new_initial_values_witness :
  ∃ buf, instance_new sample_class = Ok buf
    ∧ instance_new sample_class
      = construct_all (properties_ sample_class)
          (replicate (N.to_nat (instance_size_ sample_class)) Indeterminate)
    ∧ length buf = N.to_nat (instance_size_ sample_class)
    ∧ ∀ pid k val, slot_kind sample_class pid = Some k →
        call_get sample_class buf pid (getter_of k val) = Ok (initial_reading k).
Proof.
  apply (instance_new_initial_values sample_class).
  frozen_from sample_decl.
Defined.

(** C10 at [set_string] on the string slot of a fresh instance of the sample
    class. *)
Lemma setter_frame_witness :
  ∃ obj obj',
    instance_new sample_class = Ok obj
    ∧ call_set sample_class obj 1 (SetString "hello") = Ok obj'
    ∧ ∃ off sz, slot_range sample_class 1 = Some (off, sz)
        ∧ length obj' = length obj
        ∧ (∀ i, (i < N.to_nat off ∨ N.to_nat (off + sz) ≤ i)%nat →
                obj' !! i = obj !! i)
        ∧ (∀ q g, q ≠ 1%nat →
                  call_get sample_class obj' q g = call_get sample_class obj q g).
Proof.
  eexists _, _. split; [vm_compute; reflexivity|].
  split; [vm_compute; reflexivity|].
  apply (setter_frame sample_class _ 1 (SetString "hello")).
  - frozen_from sample_decl.
  - vm_compute. reflexivity.
Defined.

End Checks.

(** * More properties of the code *)

(** ** finish_setup: what it keeps, and the shape of the layout *)

Section LayoutMore.
Context `{Platform}.

Lemma slot_size_set_offset pi off :
  slot_size {| name := name pi; type := set_offset off <$> type pi |}
  = slot_size pi.
Proof. unfold slot_size. simpl. by destruct (type pi). Qed.

Lemma laid_out_slot_sizes c :
  slot_sizes (properties_ (laid_out c)) = slot_sizes (properties_ c).
Proof.
  apply list_eq. intros i. unfold slot_sizes.
  change (map ?f ?l) with (f <$> l). rewrite !list_lookup_fmap. simpl.
  rewrite list_lookup_imap.
  destruct (properties_ c !! i) as [pi|]; simpl; [|done].
  by rewrite slot_size_set_offset.
Qed.

Lemma laid_out_resolved c :
  resolved (properties_ c) → resolved (properties_ (laid_out c)).
Proof.
  unfold resolved. rewrite !Forall_lookup. intros Hres i pi'. simpl.
  rewrite list_lookup_imap.
  destruct (properties_ c !! i) as [pi|] eqn:Hpi; simpl; [|done].
  intros [= <-]. simpl. destruct (Hres i pi Hpi) as [t ->]. by eexists.
Qed.

Lemma laid_out_idemp c : laid_out (laid_out c) = laid_out c.
Proof.
  unfold laid_out at 1. rewrite laid_out_slot_sizes.
  unfold laid_out. simpl. f_equal.
  apply list_eq. intros i. rewrite !list_lookup_imap.
  destruct (properties_ c !! i) as [pi|]; simpl; [|done].
  by destruct (type pi).
Qed.

#[local] Instance resolved_dec props : Decision (resolved props).
Proof. unfold resolved. apply _. Defined.

Lemma finish_setup_Ok_inv c c' :
  finish_setup c = Ok c' → resolved (properties_ c) ∧ c' = laid_out c.
Proof.
  intros Hrun. destruct (decide (resolved (properties_ c))) as [Hres|Hres].
  - split; [done|]. rewrite finish_setup_laid_out in Hrun by done.
    by injection Hrun.
  - by rewrite finish_setup_unresolved in Hrun.
Qed.

(** X1. [finish_setup] changes nothing but the offsets and the instance
    size: the class keeps its name and its number of slots, every slot keeps
    its name and its kind, and every slot gets an offset. *)
Theorem finish_setup_keeps_declarations c c' :
  finish_setup c = Ok c' →
  class_name_ c' = class_name_ c
  ∧ length (properties_ c') = length (properties_ c)
  ∧ ∀ pid pi, properties_ c !! pid = Some pi →
      ∃ pi', properties_ c' !! pid = Some pi'
             ∧ name pi' = name pi
             ∧ slot_kind c' pid = slot_kind c pid
             ∧ is_Some (slot_kind c' pid)
             ∧ is_Some (slot_offset c' pid).
Proof.
  intros [Hres ->]%finish_setup_Ok_inv. split_and!.
  - done.
  - apply laid_out_length.
  - intros pid pi Hpi. eexists. split; [by apply laid_out_lookup|].
    destruct (resolved_lookup _ _ Hres (lookup_lt_Some _ _ _ Hpi))
      as (pi0 & t & Hpi0 & Ht).
    assert (pi0 = pi) as -> by congruence.
    unfold slot_kind, slot_offset.
    rewrite (laid_out_lookup _ _ _ Hpi), Hpi, Ht. simpl. rewrite Ht. simpl.
    split_and!; [done|done|by eexists|by eexists].
Qed.

(** X2. The layout depends on the kinds only: [finish_setup] run again on a
    class it has returned returns the same class. *)
Theorem finish_setup_again c c' :
  finish_setup c = Ok c' → finish_setup c' = Ok c'.
Proof.
  intros [Hres ->]%finish_setup_Ok_inv.
  rewrite finish_setup_laid_out by (by apply laid_out_resolved).
  by rewrite laid_out_idemp.
Qed.

(** In a list of slots, a byte below the total size falls in the part of one
    slot, the parts being laid end to end in list order. *)
Lemma N_sum_split (sz : nat → N) (l : list nat) (b : N) :
  b < N_sum (map sz l) →
  ∃ l1 p l2, l = l1 ++ p :: l2
    ∧ N_sum (map sz l1) ≤ b ∧ b < N_sum (map sz l1) + sz p.
Proof.
  revert b. induction l as [|x l IH]; intros b Hb; simpl in Hb; [lia|].
  destruct (decide (b < sz x)) as [Hx|Hx].
  - exists [], x, l. simpl. split_and!; [done|lia|lia].
  - destruct (IH (b - sz x)) as (l1 & p & l2 & -> & Hlo & Hhi); [lia|].
    exists (x :: l1), p, l2. simpl. split_and!; [done|lia|lia].
Qed.

(** Every byte below the total size is in the range the layout gives to some
    slot. *)
Lemma layout_covers sizes b :
  b < N_sum sizes →
  ∃ p, (p < length sizes)%nat
       ∧ layout_offset sizes p ≤ b
       ∧ b < layout_offset sizes p + nth p sizes 0.
Proof.
  intros Hb.
  pose (sz := fun i => nth i sizes 0).
  pose proof (visit_order_push_sizes sizes) as Hm.
  pose proof (visit_order_perm _ _ _ Hm) as Hperm.
  pose proof (visit_order_sorted _ _ _ Hm) as Hsorted.
  set (order := visit_order (push_sizes sizes 0 [])) in *.
  assert (Hsum : N_sum (map sz order) = N_sum sizes).
  { transitivity (N_sum (map sz (seq 0 (length sizes)))).
    - apply N_sum_perm. by apply Permutation_map.
    - unfold sz. by rewrite map_nth_seq. }
  destruct (N_sum_split sz order b) as (l1 & p & l2 & Hsplit & Hlo & Hhi); [lia|].
  rewrite Hsplit in Hperm, Hsorted.
  pose proof (sorted_prefix sz _ _ _ _ Hsorted Hperm) as Hl1.
  assert (Hoff : N_sum (map sz l1) = layout_offset sizes p).
  { unfold layout_offset. apply N_sum_perm. by apply Permutation_map. }
  exists p. split_and!.
  - assert (Hp : p ∈ seq 0 (length sizes)).
    { rewrite <-Hperm. apply elem_of_app. right. by left. }
    apply elem_of_seq in Hp. lia.
  - by rewrite <-Hoff.
  - rewrite <-Hoff. done.
Qed.

(** X3. The slots of a frozen class fill the instance: every byte of the
    instance belongs to the range of a slot, and to one slot only. *)
Theorem finish_setup_fills_instance c c' b :
  finish_setup c = Ok c' → fits_size_t (properties_ c) →
  b < instance_size_ c' →
  ∃ p off sz, slot_range c' p = Some (off, sz)
    ∧ off ≤ b ∧ b < off + sz
    ∧ ∀ q off_q sz_q, slot_range c' q = Some (off_q, sz_q) →
        off_q ≤ b → b < off_q + sz_q → q = p.
Proof.
  intros [Hres ->]%finish_setup_Ok_inv Hfits Hb.
  set (sizes := slot_sizes (properties_ c)).
  assert (Hlen : length sizes = length (properties_ c)) by apply slot_sizes_length.
  assert (Hb' : b < N_sum sizes).
  { simpl in Hb. by rewrite size_t_wrap_small in Hb. }
  destruct (layout_covers sizes b Hb') as (p & Hp & Hlo & Hhi).
  rewrite Hlen in Hp.
  destruct (resolved_lookup _ _ Hres Hp) as (pi & t & Hpi & Ht).
  exists p, (layout_offset sizes p), (nth p sizes 0). split_and!.
  - by apply (laid_out_range _ _ _ _ Hfits Hpi Ht).
  - done.
  - done.
  - intros q off_q sz_q Hq Hlo_q Hhi_q.
    destruct (decide (q = p)) as [->|Hne]; [done|exfalso].
    assert (Hlt : (q < length (properties_ c))%nat).
    { rewrite <-laid_out_length. apply lookup_lt_is_Some.
      unfold slot_range in Hq.
      destruct (properties_ (laid_out c) !! q); [by eexists|done]. }
    destruct (resolved_lookup _ _ Hres Hlt) as (pi_q & t_q & Hpi_q & Ht_q).
    rewrite (laid_out_range _ _ _ _ Hfits Hpi_q Ht_q) in Hq.
    injection Hq as <- <-. fold sizes in Hlo_q, Hhi_q.
    destruct (placed_before_total sizes q p Hne) as [Hbef|Hbef].
    + pose proof (layout_offset_before sizes q p) as Hle.
      rewrite Hlen in Hle. specialize (Hle Hlt Hbef). lia.
    + pose proof (layout_offset_before sizes p q) as Hle.
      rewrite Hlen in Hle. specialize (Hle Hp Hbef). lia.
Qed.

End LayoutMore.

(** ** Alignment *)

Lemma N_sum_filter_divide (sz : nat → N) (P : nat → Prop)
    `{∀ q, Decision (P q)} (d : N) (l : list nat) :
  (∀ q, q ∈ l → P q → (d | sz q)) →
  (d | N_sum (map sz (filter P l))).
Proof.
  induction l as [|x l IH]; intros Hdiv; simpl.
  - apply N.divide_0_r.
  - rewrite filter_cons. destruct (decide (P x)) as [Hx|Hx]; simpl.
    + apply N.divide_add_r.
      * apply Hdiv; [by left|done].
      * apply IH. intros q Hq. apply Hdiv. by right.
    + apply IH. intros q Hq. apply Hdiv. by right.
Qed.

Lemma chain_divisible_spec sizes x y :
  chain_divisible sizes = true → x ∈ sizes → y ∈ sizes → x ≤ y → (x | y).
Proof.
  unfold chain_divisible. rewrite forallb_forall. intros Hall Hx Hy Hle.
  specialize (Hall x (proj1 (list_elem_of_In _ _) Hx)).
  rewrite forallb_forall in Hall.
  specialize (Hall y (proj1 (list_elem_of_In _ _) Hy)).
  apply orb_true_iff in Hall as [Hlt|Hmod].
  - apply N.ltb_lt in Hlt. lia.
  - apply N.eqb_eq in Hmod. by apply N.Lcm0.mod_divide.
Qed.

Lemma nth_elem_of (sizes : list N) p :
  (p < length sizes)%nat → nth p sizes 0 ∈ sizes.
Proof.
  intros Hp. destruct (lookup_lt_is_Some_2 sizes p Hp) as [x Hx].
  rewrite (nth_lookup_Some _ _ _ _ Hx). by eapply list_elem_of_lookup_2.
Qed.

(** With sizes that divide the larger ones, the layout puts every slot at a
    multiple of its size. *)
Lemma layout_offset_aligned sizes p :
  chain_divisible sizes = true → (p < length sizes)%nat →
  (nth p sizes 0 | layout_offset sizes p).
Proof.
  intros Hchain Hp. unfold layout_offset.
  apply (N_sum_filter_divide (fun q => nth q sizes 0)).
  intros q Hq Hbefore. apply elem_of_seq in Hq.
  apply (chain_divisible_spec sizes); [done|..].
  - by apply nth_elem_of.
  - apply nth_elem_of. lia.
  - unfold placed_before in Hbefore. lia.
Qed.

Section Alignment.
Context `{Platform}.

Lemma numeric_sizes_chain props :
  Forall (fun pi => ∃ t, type pi = Some t ∧ numeric_kind (kind t) = true) props →
  chain_divisible (slot_sizes props) = true.
Proof.
  intros Hnum.
  assert (Hin : ∀ x, x ∈ slot_sizes props → x ∈ [1; 2; 4; 8]).
  { intros x [pi [-> Hpi]]%list_elem_of_fmap.
    rewrite Forall_forall in Hnum. destruct (Hnum pi Hpi) as ([k o] & Ht & Hk).
    unfold slot_size. rewrite Ht. simpl. unfold instance_size. simpl in *.
    destruct k as [[]| | |]; simpl; try done;
      repeat first [by left | right]. }
  unfold chain_divisible. apply forallb_forall. intros x Hx.
  apply forallb_forall. intros y Hy.
  apply list_elem_of_In, Hin in Hx. apply list_elem_of_In, Hin in Hy.
  repeat (apply elem_of_cons in Hx as [->|Hx]);
    [..|by apply elem_of_nil in Hx];
    repeat (apply elem_of_cons in Hy as [->|Hy]);
    first [reflexivity | by apply elem_of_nil in Hy].
Qed.

(** X4. When every slot size divides the slot sizes that are not smaller,
    freezing puts every slot at a multiple of its own size; this is so for
    every class that has integer and real slots only. *)
Theorem finish_setup_natural_alignment c c' :
  finish_setup c = Ok c' → fits_size_t (properties_ c) →
  chain_divisible (slot_sizes (properties_ c)) = true
  ∨ (∀ pid k, slot_kind c pid = Some k → numeric_kind k = true) →
  ∀ pid off sz, slot_range c' pid = Some (off, sz) → off mod sz = 0.
Proof.
  intros [Hres ->]%finish_setup_Ok_inv Hfits Hcase pid off sz Hrange.
  assert (Hchain : chain_divisible (slot_sizes (properties_ c)) = true).
  { destruct Hcase as [Hchain|Hnum]; [done|].
    apply numeric_sizes_chain. apply Forall_lookup. intros i pi Hpi.
    destruct (resolved_lookup _ _ Hres (lookup_lt_Some _ _ _ Hpi))
      as (pi0 & t & Hpi0 & Ht).
    assert (pi0 = pi) as -> by congruence.
    exists t. split; [done|]. apply (Hnum i).
    unfold slot_kind. rewrite Hpi. simpl. by rewrite Ht. }
  assert (Hlt : (pid < length (properties_ c))%nat).
  { rewrite <-laid_out_length. apply lookup_lt_is_Some.
    unfold slot_range in Hrange.
    destruct (properties_ (laid_out c) !! pid); [by eexists|done]. }
  destruct (resolved_lookup _ _ Hres Hlt) as (pi & t & Hpi & Ht).
  rewrite (laid_out_range _ _ _ _ Hfits Hpi Ht) in Hrange.
  injection Hrange as <- <-.
  apply N.Lcm0.mod_divide. apply layout_offset_aligned; [done|].
  by rewrite slot_sizes_length.
Qed.

End Alignment.

(** ** Declarations *)

Section DeclarationsMore.
Context `{Platform}.

Lemma set_property_Ok idx nam typ c :
  (idx < length (properties_ c))%nat →
  set_property idx nam typ c
  = Ok {| class_name_ := class_name_ c;
          properties_ := <[idx := {| name := nam; type := property_of_tag typ |}]>
                           (properties_ c);
          instance_size_ := instance_size_ c |}.
Proof.
  intros Hidx. unfold set_property. by rewrite bool_decide_eq_true_2.
Qed.

(** X5. A declaration of a slot replaces an earlier declaration of the same
    slot, declarations of different slots can be made in either order, a
    declaration leaves the other slots, the number of slots and the instance
    size as they are, and a declaration of a slot the class does not have
    aborts. *)
Theorem set_property_overwrites_and_commutes c i j ni ti nj tj :
  (i < length (properties_ c))%nat → (j < length (properties_ c))%nat →
  (set_property i ni ti c ≫= set_property i nj tj = set_property i nj tj c)
  ∧ (i ≠ j →
     set_property i ni ti c ≫= set_property j nj tj
     = set_property j nj tj c ≫= set_property i ni ti)
  ∧ (∃ c1, set_property i ni ti c = Ok c1
       ∧ length (properties_ c1) = length (properties_ c)
       ∧ instance_size_ c1 = instance_size_ c
       ∧ properties_ c1 !! i
         = Some {| name := ni; type := property_of_tag ti |}
       ∧ ∀ k, k ≠ i → properties_ c1 !! k = properties_ c !! k)
  ∧ (∀ k nk tk, (length (properties_ c) ≤ k)%nat →
       set_property k nk tk c = Abort).
Proof.
  intros Hi Hj. split_and!.
  - rewrite (set_property_Ok i ni ti) by done. simpl.
    rewrite !set_property_Ok by (simpl; rewrite ?length_insert; done).
    simpl. by rewrite list_insert_insert_eq.
  - intros Hij. rewrite (set_property_Ok i ni ti), (set_property_Ok j nj tj) by done.
    simpl. rewrite !set_property_Ok by (simpl; rewrite ?length_insert; done).
    simpl. by rewrite list_insert_insert_ne.
  - rewrite set_property_Ok by done. eexists. split; [done|]. simpl.
    split_and!.
    + apply length_insert.
    + done.
    + by apply list_lookup_insert_eq.
    + intros k Hk. by apply list_lookup_insert_ne.
  - intros k nk tk Hk. unfold set_property.
    rewrite bool_decide_eq_false_2 by lia. done.
Qed.

Lemma set_property_no_offsets idx nam typ c c1 :
  no_offsets c → set_property idx nam typ c = Ok c1 → no_offsets c1.
Proof.
  intros Hno. unfold set_property. destruct (assert _); [|done..]. simpl.
  intros [= <-] pi p Hin Ht. simpl in Hin.
  apply list_elem_of_lookup in Hin as [k Hk].
  destruct (decide (k = idx)) as [->|Hne].
  - destruct (decide (idx < length (properties_ c))%nat).
    + rewrite list_lookup_insert_eq in Hk by done. injection Hk as <-.
      simpl in Ht. unfold property_of_tag in Ht.
      repeat match type of Ht with
      | (if ?b then _ else _) = _ => destruct b
      end; by simplify_eq.
    + rewrite list_insert_ge in Hk by lia.
      apply (Hno pi p); [by eapply list_elem_of_lookup_2|done].
  - rewrite list_lookup_insert_ne in Hk by done.
    apply (Hno pi p); [by eapply list_elem_of_lookup_2|done].
Qed.

Lemma new_class_type_no_offsets nam nprop : no_offsets (new_class_type nam nprop).
Proof.
  intros pi p Hin Ht. simpl in Hin.
  apply elem_of_replicate in Hin as [-> _]. done.
Qed.

Lemma no_offsets_property_at c pid p :
  no_offsets c → property_at c pid = Ok p → offset_ p = None.
Proof.
  intros Hno (pi & Hpi & Ht)%property_at_inv.
  apply (Hno pi p); [by eapply list_elem_of_lookup_2|done].
Qed.

(** X6. A class that has not been through [finish_setup] cannot be used:
    [instance_new] on it, when it has a slot, and every accessor of a slot's
    own kind read an offset that was never set. *)
Theorem unfrozen_class_undefined c :
  no_offsets c →
  (properties_ c ≠ [] → instance_new c = Undefined)
  ∧ (∀ obj pid k s, slot_kind c pid = Some k → supports_set k s = true →
       call_set c obj pid s = Undefined)
  ∧ (∀ obj pid k g, slot_kind c pid = Some k → supports_get k g = true →
       call_get c obj pid g = Undefined).
Proof.
  intros Hno. split_and!.
  - unfold instance_new. destruct (properties_ c) as [|pi props] eqn:Hprops; [done|].
    intros _. simpl. destruct (type pi) as [[k o]|] eqn:Ht; [|done].
    assert (o = None) as ->.
    { apply (Hno pi {| kind := k; offset_ := o |}); [|done].
      rewrite Hprops. by left. }
    by destruct k.
  - intros obj pid k s Hk Hs.
    destruct (property_at_kind _ _ _ Hk) as ([k' o] & Hp & Hkind).
    simpl in Hkind. subst k'.
    pose proof (no_offsets_property_at _ _ _ Hno Hp) as Ho. simpl in Ho. subst o.
    destruct s; destruct k; try done; simpl;
      [unfold set_vec4|unfold set_real|unfold set_string|unfold set_object];
      by rewrite Hp.
  - intros obj pid k g Hk Hg.
    destruct (property_at_kind _ _ _ Hk) as ([k' o] & Hp & Hkind).
    simpl in Hkind. subst k'.
    pose proof (no_offsets_property_at _ _ _ Hno Hp) as Ho. simpl in Ho. subst o.
    destruct g; destruct k; try done; simpl;
      [unfold get_vec4|unfold get_real|unfold get_string|unfold get_object];
      by rewrite Hp.
Qed.

End DeclarationsMore.

(** ** Whole registrations *)

Section ProtocolMore.
Context `{Platform}.

Lemma property_of_tag_recognized typ :
  typ ∈ recognized_tags → is_Some (property_of_tag typ).
Proof.
  unfold recognized_tags. intros Hin.
  repeat (apply elem_of_cons in Hin as [->|Hin]; [by eexists|]).
  by apply elem_of_nil in Hin.
Qed.

Lemma declared_class_resolved nam decls :
  Forall (fun d => d.2 ∈ recognized_tags) decls →
  resolved (properties_ (declared_class nam decls)).
Proof.
  intros Hdecls. unfold resolved. simpl. apply Forall_map.
  eapply Forall_impl; [exact Hdecls|]. intros d Hd. simpl.
  by apply property_of_tag_recognized.
Qed.

Lemma declarations_cons first d decls :
  declarations first (d :: decls)
  = class_property first d.1 d.2 :: declarations (S first) decls.
Proof.
  unfold declarations. rewrite imap_cons. rewrite Nat.add_0_r. f_equal.
  apply imap_ext. intros i x _. simpl. f_equal. lia.
Qed.

(** The declarations of the slots that are left, in order, on the class
    under construction. *)
Lemma run_declarations decls : ∀ heap ptr nam done rest isz syms scope,
  heap !! ptr = Some {| class_name_ := nam; properties_ := done ++ rest;
                        instance_size_ := isz |} →
  length rest = length decls →
  run {| class_heap := heap; compile_class := Some ptr; sym_vpi := syms;
         current_scope := scope |}
      (declarations (length done) decls)
  = Ok {| class_heap :=
            <[ptr := {| class_name_ := nam;
                        properties_ :=
                          done ++ map (fun d => {| name := d.1;
                                                   type := property_of_tag d.2 |})
                                      decls;
                        instance_size_ := isz |}]> heap;
          compile_class := Some ptr; sym_vpi := syms; current_scope := scope |}.
Proof.
  induction decls as [|d decls IH];
    intros heap ptr nam done rest isz syms scope Hptr Hlen.
  - destruct rest; [|done]. simpl. by rewrite list_insert_id.
  - destruct rest as [|r rest]; [done|]. rewrite declarations_cons. simpl.
    unfold compile_class_property. simpl. rewrite Hptr.
    rewrite set_property_Ok by (simpl; rewrite length_app; simpl; lia).
    simpl.
    replace (<[length done := {| name := d.1; type := property_of_tag d.2 |}]>
               (done ++ r :: rest))
      with ((done ++ [{| name := d.1; type := property_of_tag d.2 |}]) ++ rest).
    2:{ rewrite <-(Nat.add_0_r (length done)), insert_app_r. simpl.
        by rewrite <-(assoc_L (++)). }
    specialize (IH (<[ptr := {| class_name_ := nam;
                                properties_ :=
                                  (done ++ [{| name := d.1;
                                               type := property_of_tag d.2 |}])
                                  ++ rest;
                                instance_size_ := isz |}]> heap)
                   ptr nam
                   (done ++ [{| name := d.1; type := property_of_tag d.2 |}])
                   rest isz syms scope).
    rewrite length_app in IH. simpl in IH. rewrite Nat.add_1_r in IH.
    rewrite IH.
    + rewrite list_insert_insert_eq. by rewrite <-(assoc_L (++)).
    + apply list_lookup_insert_eq. by eapply lookup_lt_Some.
    + simpl in Hlen. lia.
Qed.

Lemma insert_last {A} (l : list A) (x y : A) :
  <[length l := y]> (l ++ [x]) = l ++ [y].
Proof. rewrite <-(Nat.add_0_r (length l)). by rewrite insert_app_r. Qed.

(** A registration with known tags, started with no build open and in a
    scope, runs: the frozen class is added to the class objects and entered
    in the scope under its name. *)
Lemma run_registration s classes lab nam decls :
  compile_class s = None → current_scope s = Some classes →
  Forall (fun d => d.2 ∈ recognized_tags) decls →
  run s (registration lab nam decls)
  = Ok {| class_heap := class_heap s ++ [laid_out (declared_class nam decls)];
          compile_class := None;
          sym_vpi := compile_vpi_symbol lab (length (class_heap s)) (sym_vpi s);
          current_scope := Some (<[nam := length (class_heap s)]> classes) |}.
Proof.
  intros Hclosed Hscope Htags. destruct s as [heap cc syms scope].
  simpl in *. subst cc scope.
  unfold registration. cbn [run step]. unfold compile_class_start. simpl.
  rewrite run_app.
  pose proof (run_declarations decls
                (heap ++ [new_class_type nam (length decls)]) (length heap) nam []
                (replicate (length decls) {| name := ""; type := None |}) 0
                (compile_vpi_symbol lab (length heap) syms) (Some classes)) as Hdecl.
  simpl in Hdecl. rewrite insert_last in Hdecl. rewrite Hdecl.
  - simpl. unfold compile_class_done, vpip_peek_current_scope. simpl.
    rewrite list_lookup_middle by done.
    fold (declared_class nam decls).
    rewrite finish_setup_laid_out by (by apply declared_class_resolved).
    simpl. by rewrite insert_last.
  - by rewrite list_lookup_middle.
  - by rewrite length_replicate.
Qed.

Lemma declared_class_fits nam decls :
  N.of_nat (length decls) * max_slot_size < 2 ^ size_t_bits →
  fits_size_t (properties_ (declared_class nam decls)).
Proof.
  intros Hcount. apply fits_size_t_by_count. simpl. by rewrite length_map.
Qed.

(** X7. A registration (start, one declaration per slot with a known tag,
    done) made in a scope while no build is open runs to its end: the class
    is frozen, it is entered in the scope's classes under its name, in place
    of an earlier class of that name if there is one, other names keep their
    class, and no build is left open. *)
Theorem registration_publishes_frozen_class s classes lab nam decls :
  compile_class s = None → current_scope s = Some classes →
  Forall (fun d => d.2 ∈ recognized_tags) decls →
  N.of_nat (length decls) * max_slot_size < 2 ^ size_t_bits →
  ∃ s' c' classes',
    run s (registration lab nam decls) = Ok s'
    ∧ compile_class s' = None
    ∧ class_heap s' = class_heap s ++ [c']
    ∧ frozen c'
    ∧ class_name_ c' = nam
    ∧ slot_kinds c' = map (fun d => kind <$> property_of_tag d.2) decls
    ∧ current_scope s' = Some classes'
    ∧ classes' !! nam = Some (length (class_heap s))
    ∧ ∀ other, other ≠ nam → classes' !! other = classes !! other.
Proof.
  intros Hclosed Hscope Htags Hcount.
  eexists _, (laid_out (declared_class nam decls)), _.
  split; [by apply run_registration|]. simpl. split_and!; try done.
  - exists (declared_class nam decls). split_and!.
    + by apply declared_class_resolved.
    + by apply declared_class_fits.
    + apply finish_setup_laid_out. by apply declared_class_resolved.
  - unfold slot_kinds. simpl. apply list_eq. intros i.
    change (map ?f ?l) with (f <$> l).
    rewrite !list_lookup_fmap, list_lookup_imap, list_lookup_fmap.
    destruct (decls !! i) as [d|]; simpl; [|done].
    by destruct (property_of_tag d.2).
  - apply lookup_insert_eq.
  - intros other Hother. by apply lookup_insert_ne.
Qed.

Lemma closed_state_aborts s :
  compile_class s = None →
  (∀ idx nam typ, compile_class_property idx nam typ s = Abort)
  ∧ compile_class_done s = Abort.
Proof.
  intros Hnone. split.
  - intros idx nam typ. unfold compile_class_property. by rewrite Hnone.
  - unfold compile_class_done. destruct (vpip_peek_current_scope s); [|done].
    by rewrite Hnone.
Qed.

(** X8. After any sequence of protocol calls that ran and left no build
    open, a declaration aborts and so does [class_done]: they need a
    [class_start] first. *)
Theorem no_open_build_aborts scope calls s :
  run (initial_state scope) calls = Ok s → build_open calls = false →
  (∀ idx nam typ,
     run (initial_state scope) (calls ++ [class_property idx nam typ]) = Abort)
  ∧ run (initial_state scope) (calls ++ [class_done]) = Abort.
Proof.
  intros Hrun Hclosed.
  pose proof (run_compile_class _ _ _ Hrun) as Hopen. simpl in Hopen.
  change (open_after false calls) with (build_open calls) in Hopen.
  rewrite Hclosed in Hopen. apply bool_decide_eq_false in Hopen.
  assert (Hnone : compile_class s = None).
  { destruct (compile_class s); [|done]. destruct Hopen. by eexists. }
  destruct (closed_state_aborts s Hnone) as [Hprop Hdone]. split.
  - intros idx nam typ. rewrite run_app, Hrun. simpl. by rewrite Hprop.
  - rewrite run_app, Hrun. simpl. by rewrite Hdone.
Qed.

Lemma step_no_scope s x s' :
  current_scope s = None → step s x = Ok s' →
  current_scope s' = None ∧ x ≠ class_done.
Proof.
  intros Hscope. destruct x as [lab nam ntype|idx nam typ|]; simpl.
  - unfold compile_class_start. destruct (assert _); [|done..]. simpl.
    by intros [= <-].
  - unfold compile_class_property.
    destruct (compile_class s) as [ptr|]; [|done].
    destruct (class_heap s !! ptr); [|done].
    destruct (set_property _ _ _ _); [|done..]. simpl. by intros [= <-].
  - unfold compile_class_done, vpip_peek_current_scope. by rewrite Hscope.
Qed.

(** X9. Outside of any scope no class can be finished: a sequence of calls
    that runs from a start without a scope has no [class_done] in it, and
    leaves the state without a scope. *)
Theorem no_scope_no_class_done calls : ∀ s s',
  current_scope s = None → run s calls = Ok s' →
  (class_done ∉ calls)
  ∧ current_scope s' = None ∧ compile_class_done s' = Abort.
Proof.
  induction calls as [|x calls IH]; intros s s' Hscope Hrun; simpl in Hrun.
  - injection Hrun as <-. split_and!; [by intros ?%elem_of_nil|done|].
    unfold compile_class_done, vpip_peek_current_scope. by rewrite Hscope.
  - destruct (step s x) as [s1| |] eqn:Hstep; [|done..]. simpl in Hrun.
    destruct (step_no_scope _ _ _ Hscope Hstep) as [Hscope1 Hx].
    destruct (IH _ _ Hscope1 Hrun) as (Hnotin & Hscope' & Hdone).
    split_and!; [|done|done].
    intros [Heq|Hin]%elem_of_cons; [by subst x|done].
Qed.

Lemma step_other_class s x s' ptr :
  step s x = Ok s' →
  (ptr < length (class_heap s))%nat → compile_class s ≠ Some ptr →
  class_heap s' !! ptr = class_heap s !! ptr
  ∧ (ptr < length (class_heap s'))%nat ∧ compile_class s' ≠ Some ptr.
Proof.
  intros Hstep Hptr Hcc. destruct x as [lab nam ntype|idx nam typ|];
    simpl in Hstep.
  - unfold compile_class_start in Hstep.
    destruct (assert _); [|done..]. simpl in Hstep. injection Hstep as <-.
    simpl. split_and!.
    + by apply lookup_app_l.
    + rewrite length_app. lia.
    + intros [= Heq]. lia.
  - unfold compile_class_property in Hstep.
    destruct (compile_class s) as [ptr'|] eqn:Hcc'; [|done].
    destruct (class_heap s !! ptr'); [|done].
    destruct (set_property _ _ _ _); [|done..]. simpl in Hstep.
    injection Hstep as <-. simpl. split_and!.
    + apply list_lookup_insert_ne. congruence.
    + by rewrite length_insert.
    + done.
  - unfold compile_class_done in Hstep.
    destruct (vpip_peek_current_scope s); [|done].
    destruct (compile_class s) as [ptr'|] eqn:Hcc'; [|done].
    destruct (class_heap s !! ptr'); [|done].
    destruct (finish_setup _); [|done..]. simpl in Hstep.
    injection Hstep as <-. simpl. split_and!.
    + apply list_lookup_insert_ne. congruence.
    + by rewrite length_insert.
    + done.
Qed.

(** X10. The protocol calls write to the class under construction only: a
    class object that exists and is not the one being built is the same
    after any sequence of calls that runs. *)
Theorem finished_classes_unchanged calls : ∀ s s' ptr,
  run s calls = Ok s' →
  (ptr < length (class_heap s))%nat → compile_class s ≠ Some ptr →
  class_heap s' !! ptr = class_heap s !! ptr.
Proof.
  induction calls as [|x calls IH]; intros s s' ptr Hrun Hptr Hcc;
    simpl in Hrun.
  - by injection Hrun as <-.
  - destruct (step s x) as [s1| |] eqn:Hstep; [|done..]. simpl in Hrun.
    destruct (step_other_class _ _ _ _ Hstep Hptr Hcc) as (Hsame & Hptr1 & Hcc1).
    rewrite (IH _ _ _ Hrun Hptr1 Hcc1). done.
Qed.

End ProtocolMore.

(** ** Accessors and the end of an instance *)

Lemma release_inv buf off sz buf' :
  release buf off sz = Ok buf' →
  (N.to_nat off + N.to_nat sz ≤ length buf)%nat
  ∧ buf' = take (N.to_nat off) buf ++ replicate (N.to_nat sz) Indeterminate
           ++ drop (N.to_nat off + N.to_nat sz) buf.
Proof. unfold release. case_bool_decide; [|done]. by intros [= <-]. Qed.

Lemma release_length buf off sz buf' :
  release buf off sz = Ok buf' → length buf' = length buf.
Proof.
  intros [Hin ->]%release_inv.
  rewrite !length_app, length_take, length_drop, length_replicate. lia.
Qed.

Lemma release_lookup_outside buf off sz buf' i :
  release buf off sz = Ok buf' →
  (i < N.to_nat off ∨ N.to_nat off + N.to_nat sz ≤ i)%nat →
  buf' !! i = buf !! i.
Proof.
  intros [Hin ->]%release_inv Hi.
  assert (Htake : length (take (N.to_nat off) buf) = N.to_nat off)
    by (rewrite length_take; lia).
  destruct Hi as [Hi|Hi].
  - rewrite lookup_app_l by lia. by apply lookup_take_lt.
  - rewrite lookup_app_r by lia. rewrite lookup_app_r
      by (rewrite length_replicate; lia).
    rewrite lookup_drop, Htake, length_replicate. f_equal. lia.
Qed.

Lemma load_release_other buf off sz buf' off' sz' :
  0 < sz' → release buf off sz = Ok buf' →
  off' + sz' ≤ off ∨ off + sz ≤ off' →
  load buf' off' sz' = load buf off' sz'.
Proof.
  intros Hsz Hrel Hdis. apply load_ext; [done|]. intros j Hj.
  apply (release_lookup_outside _ _ _ _ _ Hrel). lia.
Qed.

Lemma load_release_same buf off sz buf' :
  0 < sz → release buf off sz = Ok buf' → load buf' off sz = Undefined.
Proof.
  intros Hsz [Hin ->]%release_inv. unfold load.
  assert (Htake : length (take (N.to_nat off) buf) = N.to_nat off)
    by (rewrite length_take; lia).
  rewrite lookup_app_r by lia. rewrite Htake, Nat.sub_diag.
  rewrite lookup_app_l by (rewrite length_replicate; lia).
  by rewrite lookup_replicate_2 by lia.
Qed.

Lemma load_Ok_bounds buf off sz v :
  load buf off sz = Ok v → (N.to_nat off + N.to_nat sz ≤ length buf)%nat.
Proof.
  unfold load. destruct (buf !! N.to_nat off) as [[|v' i]|] eqn:Hoff; try done.
  case_bool_decide as Heq; [|done]. intros _.
  apply lookup_lt_Some in Hoff.
  apply (f_equal length) in Heq.
  rewrite length_take, length_drop, object_repr_length in Heq. lia.
Qed.

Lemma release_Ok buf off sz :
  (N.to_nat off + N.to_nat sz ≤ length buf)%nat →
  ∃ buf', release buf off sz = Ok buf'.
Proof. intros Hin. unfold release. rewrite bool_decide_eq_true_2 by done. by eexists. Qed.

Section InstancesMore.
Context `{Platform}.

(** X11. An accessor called with a property id the class does not have
    aborts, whatever the buffer. *)
Theorem accessor_pid_out_of_range c obj pid :
  (length (properties_ c) ≤ pid)%nat →
  (∀ s, call_set c obj pid s = Abort) ∧ (∀ g, call_get c obj pid g = Abort).
Proof.
  intros Hpid.
  assert (Hab : property_at c pid = Abort).
  { apply property_at_out_of_range. by apply lookup_ge_None. }
  split.
  - intros s. destruct s; simpl;
      [unfold set_vec4|unfold set_real|unfold set_string|unfold set_object];
      by rewrite Hab.
  - intros g. destruct g; simpl;
      [unfold get_vec4|unfold get_real|unfold get_string|unfold get_object];
      by rewrite Hab.
Qed.

Lemma call_set_store_value c obj pid k off s obj' v :
  property_at c pid = Ok {| kind := k; offset_ := Some off |} →
  call_set c obj pid s = Ok obj' → setter_value s = Some v →
  store obj off (kind_size k) v = Ok obj'.
Proof.
  intros Hp. destruct s as [val|val|val|val]; simpl; try done;
    [unfold set_real|unfold set_string|unfold set_object];
    rewrite Hp; simpl;
    [unfold Property.set_real|unfold Property.set_string
    |unfold Property.set_object];
    destruct k as [T| | |]; simpl; try done.
  - by intros Hst [= <-].
  - destruct (Property.load_string obj off); simpl; [|done..].
    by intros Hst [= <-].
  - destruct (Property.load_object obj off); simpl; [|done..].
    by intros Hst [= <-].
Qed.

Lemma setter_reading_of k s v r :
  supports_set k s = true → setter_value s = Some v →
  setter_reading s = Some r → reading_of k v = Some r.
Proof.
  destruct s, k; try done; simpl; by intros _ [= <-] [= <-].
Qed.

(** X12. On an instance of a frozen class, [set_real], [set_string] and
    [set_object] on a slot of their kind return, leave an instance, and the
    getter of that kind then returns the value that was set. *)
Theorem set_then_get c obj pid k s r :
  frozen c → live_instance c obj →
  slot_kind c pid = Some k → supports_set k s = true →
  setter_reading s = Some r →
  ∃ obj', call_set c obj pid s = Ok obj'
          ∧ live_instance c obj'
          ∧ ∀ val, call_get c obj' pid (getter_of k val) = Ok r.
Proof.
  intros Hfr Hlive Hk Hs Hr.
  destruct (setter_returns c obj pid k s Hfr Hlive Hk Hs) as (obj' & Hset & Hlive').
  { intros val ->. done. }
  exists obj'. split_and!; [done..|]. intros val.
  destruct (frozen_slot_kind _ _ _ Hfr Hk) as (off & Hp).
  destruct (frozen_slot_inside _ _ _ _ Hfr Hp) as [_ Hpos].
  assert (Hv : ∃ v, setter_value s = Some v)
    by (destruct s; [discriminate Hr|by eexists..]).
  destruct Hv as [v Hv].
  pose proof (call_set_store_value _ _ _ _ _ _ _ _ Hp Hset Hv) as Hst.
  apply (call_get_load c obj' pid k off v r val Hp).
  - by apply (load_store_same _ _ _ _ _ Hpos Hst).
  - by apply (setter_reading_of k s).
Qed.

Lemma bits_of_length wid n : length (bits_of wid n) = wid.
Proof. unfold bits_of. by rewrite length_map, length_seq. Qed.

Lemma bits_of_concrete wid n : forallb bit4_concrete (bits_of wid n) = true.
Proof.
  apply forallb_forall. intros b Hb. unfold bits_of in Hb.
  apply in_map_iff in Hb as (i & <- & _). by destruct (N.testbit _ _).
Qed.

(** X13. [get_vec4] on an integer slot of an instance of a frozen class
    returns a vector of 8*sizeof(T) digits that are all 0 or 1; the vector
    does not depend on what the vector passed in held, and is the same for a
    4-byte and an 8-byte [unsigned long]. *)
Theorem get_vec4_shape c obj pid T :
  frozen c → live_instance c obj →
  slot_kind c pid = Some (property_atom T) →
  ∃ n, load obj (default 0 (slot_offset c pid)) (sizeof_atom T) = Ok (Vatom n)
    ∧ (∀ val, get_vec4 c obj pid val
              = Ok (bits_of (N.to_nat (8 * sizeof_atom T)) n))
    ∧ length (bits_of (N.to_nat (8 * sizeof_atom T)) n)
      = N.to_nat (8 * sizeof_atom T)
    ∧ forallb bit4_concrete (bits_of (N.to_nat (8 * sizeof_atom T)) n) = true.
Proof.
  intros Hfr [_ Hlive] Hk.
  destruct (frozen_slot_kind _ _ _ Hfr Hk) as (off & Hp).
  destruct (Hlive _ _ _ Hp) as (v & Hload & Hv).
  destruct v as [n| | |]; try done. exists n.
  assert (Hoff : slot_offset c pid = Some off).
  { destruct (property_at_inv _ _ _ Hp) as (pi & Hpi & Ht).
    unfold slot_offset. rewrite Hpi. simpl. by rewrite Ht. }
  rewrite Hoff. simpl. split_and!.
  - done.
  - intros val. unfold get_vec4. rewrite Hp. simpl.
    apply get_vec4_bits. unfold Property.load_atom.
    change (sizeof_atom T) with (kind_size (property_atom T)). by rewrite Hload.
  - apply bits_of_length.
  - apply bits_of_concrete.
Qed.

Lemma destruct_numeric k o buf :
  numeric_kind k = true →
  Property.destruct {| kind := k; offset_ := o |} buf = Ok buf.
Proof. by destruct k. Qed.

Lemma destruct_release k off buf v :
  numeric_kind k = false →
  load buf off (kind_size k) = Ok v → holds_kind k v = true →
  Property.destruct {| kind := k; offset_ := Some off |} buf
  = release buf off (kind_size k).
Proof.
  intros Hk Hload Hv. destruct k; try done; destruct v; try done;
    unfold Property.destruct; simpl.
  - unfold Property.load_string.
    change sizeof_string with (kind_size property_string). by rewrite Hload.
  - unfold Property.load_object.
    change sizeof_object with (kind_size property_object). by rewrite Hload.
Qed.

Lemma destruct_dead k off buf :
  numeric_kind k = false →
  load buf off (kind_size k) = Undefined →
  Property.destruct {| kind := k; offset_ := Some off |} buf = Undefined.
Proof.
  intros Hk Hload. destruct k; try done; unfold Property.destruct; simpl.
  - unfold Property.load_string.
    change sizeof_string with (kind_size property_string). by rewrite Hload.
  - unfold Property.load_object.
    change sizeof_object with (kind_size property_object). by rewrite Hload.
Qed.

(** The destructors run over the slots from some index on, all of which hold
    a value: the slots before it and the numeric slots read as they did, the
    string and object slots among the others hold nothing any more. *)
Lemma destruct_all_frozen c :
  frozen c → ∀ rest pre buf,
  properties_ c = pre ++ rest →
  (∀ i k off, property_at c i = Ok {| kind := k; offset_ := Some off |} →
     (length pre ≤ i)%nat →
     ∃ v, load buf off (kind_size k) = Ok v ∧ holds_kind k v = true) →
  ∃ buf', destruct_all rest buf = Ok buf'
    ∧ length buf' = length buf
    ∧ (∀ i k off, property_at c i = Ok {| kind := k; offset_ := Some off |} →
         (i < length pre)%nat ∨ numeric_kind k = true →
         load buf' off (kind_size k) = load buf off (kind_size k))
    ∧ (∀ i k off, property_at c i = Ok {| kind := k; offset_ := Some off |} →
         (length pre ≤ i)%nat → numeric_kind k = false →
         load buf' off (kind_size k) = Undefined).
Proof.
  intros Hfr. induction rest as [|pi rest IH]; intros pre buf Hsplit Hlive.
  - exists buf. split_and!; [done..|].
    intros i k off (pi & Hpi & _)%property_at_inv Hi.
    apply lookup_lt_Some in Hpi.
    rewrite Hsplit, (right_id_L [] (++)) in Hpi. lia.
  - assert (Hpi : properties_ c !! length pre = Some pi)
      by (by rewrite Hsplit, list_lookup_middle).
    destruct (frozen_lookup _ _ _ Hfr Hpi) as (k0 & off0 & Ht0).
    pose proof (property_at_lookup _ _ _ _ Hpi Ht0) as Hp0.
    destruct (frozen_slot_inside _ _ _ _ Hfr Hp0) as [_ Hpos0].
    assert (Hsplit' : properties_ c = (pre ++ [pi]) ++ rest)
      by (by rewrite <-(assoc_L (++))).
    simpl. rewrite Ht0.
    destruct (numeric_kind k0) eqn:Hnum.
    + rewrite destruct_numeric by done. simpl.
      destruct (IH (pre ++ [pi]) buf Hsplit') as (buf' & Hrun & Hlen & Hold & Hdead).
      { intros i k off Hp Hi. rewrite length_app in Hi. simpl in Hi.
        apply (Hlive i); [done|lia]. }
      rewrite length_app in Hold, Hdead. simpl in Hold, Hdead.
      exists buf'. split_and!; [done|done| |].
      * intros i k off Hp Hi. apply (Hold i); [done|]. destruct Hi; [left; lia|by right].
      * intros i k off Hp Hi Hk. apply (Hdead i); [done| |done].
        destruct (decide (i = length pre)) as [->|Hne]; [|lia].
        rewrite Hp in Hp0. injection Hp0 as <- <-. congruence.
    + destruct (Hlive _ _ _ Hp0) as (v0 & Hload0 & Hv0); [done|].
      rewrite (destruct_release _ _ _ _ Hnum Hload0 Hv0).
      destruct (release_Ok buf off0 (kind_size k0)) as [buf1 Hrel];
        [by eapply load_Ok_bounds|].
      rewrite Hrel. simpl.
      assert (Hother : ∀ i k off,
                property_at c i = Ok {| kind := k; offset_ := Some off |} →
                i ≠ length pre →
                load buf1 off (kind_size k) = load buf off (kind_size k)).
      { intros i k off Hp Hi.
        destruct (frozen_slot_inside _ _ _ _ Hfr Hp) as [_ Hpos].
        apply (load_release_other _ _ _ _ _ _ Hpos Hrel).
        by apply (frozen_slots_apart c i (length pre)). }
      destruct (IH (pre ++ [pi]) buf1 Hsplit') as (buf' & Hrun & Hlen & Hold & Hdead).
      { intros i k off Hp Hi. rewrite length_app in Hi. simpl in Hi.
        rewrite (Hother i k off Hp) by lia. apply (Hlive i); [done|lia]. }
      rewrite length_app in Hold, Hdead. simpl in Hold, Hdead.
      exists buf'. split_and!; [done| | |].
      * rewrite Hlen. by eapply release_length.
      * intros i k off Hp Hi.
        assert (Hne : i ≠ length pre).
        { intros ->. rewrite Hp in Hp0. injection Hp0 as <- <-.
          destruct Hi; [lia|congruence]. }
        rewrite (Hold i k off Hp) by (destruct Hi; [left; lia|by right]).
        by apply (Hother i).
      * intros i k off Hp Hi Hk.
        destruct (decide (i = length pre)) as [->|Hne].
        -- rewrite Hp in Hp0. injection Hp0 as <- <-.
           rewrite (Hold _ _ _ Hp) by (left; lia).
           by apply (load_release_same _ _ _ _ Hpos0 Hrel).
        -- apply (Hdead i); [done|lia|done].
Qed.

(** X14. [instance_delete] returns on every instance of a frozen class: each
    destructor finds the object it ends. *)
Theorem instance_delete_live c obj :
  frozen c → live_instance c obj → instance_delete c obj = Ok tt.
Proof.
  intros Hfr [_ Hlive].
  destruct (destruct_all_frozen c Hfr (properties_ c) [] obj)
    as (obj' & Hrun & _); [done| |].
  - intros i k off Hp _. by apply (Hlive i).
  - unfold instance_delete. by rewrite Hrun.
Qed.

Lemma destruct_all_dead c :
  frozen c → ∀ rest pre buf,
  properties_ c = pre ++ rest →
  (∀ i k off, property_at c i = Ok {| kind := k; offset_ := Some off |} →
     numeric_kind k = false → load buf off (kind_size k) = Undefined) →
  (∃ i k, (length pre ≤ i)%nat ∧ slot_kind c i = Some k
          ∧ numeric_kind k = false) →
  destruct_all rest buf = Undefined.
Proof.
  intros Hfr. induction rest as [|pi rest IH]; intros pre buf Hsplit Hdead Hex.
  - destruct Hex as (i & k & Hi & Hk & _).
    destruct (property_at_kind _ _ _ Hk) as (p & (pi & Hpi & _)%property_at_inv & _).
    apply lookup_lt_Some in Hpi.
    rewrite Hsplit, (right_id_L [] (++)) in Hpi. lia.
  - assert (Hpi : properties_ c !! length pre = Some pi)
      by (by rewrite Hsplit, list_lookup_middle).
    destruct (frozen_lookup _ _ _ Hfr Hpi) as (k0 & off0 & Ht0).
    pose proof (property_at_lookup _ _ _ _ Hpi Ht0) as Hp0.
    simpl. rewrite Ht0. destruct (numeric_kind k0) eqn:Hnum.
    + rewrite destruct_numeric by done. simpl.
      apply (IH (pre ++ [pi])); [by rewrite <-(assoc_L (++))|done|].
      destruct Hex as (i & k & Hi & Hk & Hnk). exists i, k.
      split_and!; [|done|done]. rewrite length_app. simpl.
      destruct (decide (i = length pre)) as [->|Hne]; [|lia].
      unfold slot_kind in Hk. rewrite Hpi in Hk. simpl in Hk.
      rewrite Ht0 in Hk. simpl in Hk. congruence.
    + rewrite destruct_dead; [done|done|]. by apply (Hdead (length pre)).
Qed.

(** X15. After the destructors have run over an instance of a frozen class,
    the integer and real slots still read what they held, the string and
    object slots can no longer be read, and running the destructors or
    [instance_delete] once more, on a class that has a string or object slot,
    has no defined behaviour. *)
Theorem destructed_instance c obj :
  frozen c → live_instance c obj →
  ∃ obj', destruct_all (properties_ c) obj = Ok obj'
    ∧ length obj' = length obj
    ∧ (∀ pid k g, slot_kind c pid = Some k → numeric_kind k = true →
         call_get c obj' pid g = call_get c obj pid g)
    ∧ (∀ pid k g, slot_kind c pid = Some k → numeric_kind k = false →
         supports_get k g = true → call_get c obj' pid g = Undefined)
    ∧ ((∃ pid k, slot_kind c pid = Some k ∧ numeric_kind k = false) →
       instance_delete c obj' = Undefined).
Proof.
  intros Hfr [_ Hlive].
  destruct (destruct_all_frozen c Hfr (properties_ c) [] obj)
    as (obj' & Hrun & Hlen & Hsame & Hdead); [done| |].
  { intros i k off Hp _. by apply (Hlive i). }
  exists obj'. split_and!; [done|done| | |].
  - intros pid k g Hk Hnum.
    destruct (frozen_slot_kind _ _ _ Hfr Hk) as (off & Hp).
    apply (call_get_ext _ _ _ _ _ _ _ Hp). apply (Hsame pid); [done|by right].
  - intros pid k g Hk Hnum Hg.
    destruct (frozen_slot_kind _ _ _ Hfr Hk) as (off & Hp).
    pose proof (Hdead pid k off Hp ltac:(simpl; lia) Hnum) as Hload.
    destruct g; destruct k; try done; simpl;
      [unfold get_string|unfold get_object]; rewrite Hp; simpl;
      [unfold Property.get_string, Property.load_string
      |unfold Property.get_object, Property.load_object]; simpl;
      unfold kind_size, instance_size in Hload; simpl in Hload;
      by rewrite Hload.
  - intros (pid & k & Hk & Hnum). unfold instance_delete.
    rewrite (destruct_all_dead c Hfr (properties_ c) [] obj'); [done|done| |].
    + intros i k' off Hp Hk'. apply (Hdead i); [done|simpl; lia|done].
    + exists pid, k. split_and!; [simpl; lia|done|done].
Qed.

End InstancesMore.

(** ** What holds after every sequence of protocol calls *)

Section ProtocolInvariants.
Context `{Platform}.

Lemma finish_setup_defined c : finish_setup c ≠ Undefined.
Proof.
  destruct (decide (resolved (properties_ c))) as [Hres|Hres].
  - by rewrite finish_setup_laid_out.
  - by rewrite finish_setup_unresolved.
Qed.

Lemma set_property_defined idx nam typ c : set_property idx nam typ c ≠ Undefined.
Proof. unfold set_property, assert. by case_bool_decide. Qed.

Lemma step_pointer_valid s x :
  build_pointer_valid s →
  step s x ≠ Undefined ∧ ∀ s', step s x = Ok s' → build_pointer_valid s'.
Proof.
  intros Hvalid. destruct x as [lab nam ntype|idx nam typ|]; simpl.
  - unfold compile_class_start, assert. case_bool_decide; simpl; [|done].
    split; [done|]. intros s' [= <-] ptr. simpl. intros [= <-].
    rewrite length_app. simpl. lia.
  - unfold compile_class_property.
    destruct (compile_class s) as [ptr|] eqn:Hcc; [|done].
    destruct (lookup_lt_is_Some_2 (class_heap s) ptr (Hvalid ptr Hcc))
      as [c Hc].
    rewrite Hc. pose proof (set_property_defined idx nam typ c) as Hdef.
    destruct (set_property idx nam typ c) as [c'| |]; simpl; [|done..].
    split; [done|]. intros s' [= <-] ptr'. simpl. intros [= <-].
    rewrite length_insert. by apply Hvalid.
  - unfold compile_class_done. destruct (vpip_peek_current_scope s); [|done].
    destruct (compile_class s) as [ptr|] eqn:Hcc; [|done].
    destruct (lookup_lt_is_Some_2 (class_heap s) ptr (Hvalid ptr Hcc))
      as [c Hc].
    rewrite Hc. pose proof (finish_setup_defined c) as Hdef.
    destruct (finish_setup c) as [c'| |]; simpl; [|done..].
    split; [done|]. by intros s' [= <-] ptr'.
Qed.


Lemma step_registry_ok s x s' :
  build_pointer_valid s → registry_ok s → step s x = Ok s' → registry_ok s'.
Proof.
  intros Hvalid Hreg Hstep.
  assert (Hlt : ∀ classes nam ptr, current_scope s = Some classes →
            classes !! nam = Some ptr → (ptr < length (class_heap s))%nat).
  { intros classes nam ptr Hsc Hnam.
    destruct (Hreg _ _ _ Hsc Hnam) as (_ & c & Hc & _).
    by eapply lookup_lt_Some. }
  destruct x as [lab nam ntype|idx nam typ|]; simpl in Hstep.
  - unfold compile_class_start in Hstep.
    destruct (assert _); [|done..]. simpl in Hstep. injection Hstep as <-.
    intros classes n ptr Hsc Hn. simpl in *.
    destruct (Hreg _ _ _ Hsc Hn) as (_ & c & Hc & Hname & Hfin).
    split.
    + intros [= Heq]. apply lookup_lt_Some in Hc. lia.
    + exists c. split_and!; [|done|done]. by apply lookup_app_l_Some.
  - unfold compile_class_property in Hstep.
    destruct (compile_class s) as [ptr0|] eqn:Hcc; [|done].
    destruct (class_heap s !! ptr0) as [cb|]; [|done].
    destruct (set_property _ _ _ _) as [cb'| |]; [|done..]. simpl in Hstep.
    injection Hstep as <-. intros classes n ptr Hsc Hn. simpl in *.
    destruct (Hreg _ _ _ Hsc Hn) as (Hne & c & Hc & Hname & Hfin).
    rewrite Hcc in Hne. split; [done|]. exists c.
    split_and!; [|done|done].
    rewrite list_lookup_insert_ne; [done|]. congruence.
  - unfold compile_class_done, vpip_peek_current_scope in Hstep.
    destruct (current_scope s) as [classes0|] eqn:Hsc0; [|done].
    destruct (compile_class s) as [ptr0|] eqn:Hcc; [|done].
    destruct (class_heap s !! ptr0) as [c0|] eqn:Hc0; [|done].
    destruct (finish_setup c0) as [c'| |] eqn:Hfin0; [|done..]. simpl in Hstep.
    injection Hstep as <-. intros classes n ptr Hsc Hn. simpl in *.
    injection Hsc as <-. split; [done|].
    destruct (decide (n = class_name_ c')) as [->|Hne].
    + rewrite lookup_insert_eq in Hn. injection Hn as <-.
      exists c'. split_and!; [|done|by exists c0].
      apply list_lookup_insert_eq. by eapply lookup_lt_Some.
    + rewrite lookup_insert_ne in Hn by done.
      destruct (Hreg _ _ _ Hsc0 Hn) as (Hneq & c & Hc & Hname & Hfin).
      exists c. split_and!; [|done|done].
      rewrite list_lookup_insert_ne; [done|]. congruence.
Qed.

(** X17. The protocol calls keep the classes map sound: if, before a
    sequence of calls that runs, each name in the scope's classes map leads
    to a class object that has this name, has been through [finish_setup]
    and is not the class under construction, then so it is after; and so it
    is at program start in an empty scope. *)
Theorem registry_holds_finished_classes calls : ∀ s s',
  build_pointer_valid s → registry_ok s →
  run s calls = Ok s' → registry_ok s'.
Proof.
  induction calls as [|x calls IH]; intros s s' Hvalid Hreg Hrun;
    simpl in Hrun.
  - by injection Hrun as <-.
  - destruct (step s x) as [s1| |] eqn:Hstep; [|done..]. simpl in Hrun.
    apply (IH s1 s'); [|by eapply step_registry_ok|done].
    by apply (step_pointer_valid s x Hvalid).
Qed.

Lemma initial_state_valid scope : build_pointer_valid (initial_state scope).
Proof. by intros ptr. Qed.

Lemma initial_state_registry_ok : registry_ok (initial_state (Some ∅)).
Proof. intros classes nam ptr [= <-] Hnam. by rewrite lookup_empty in Hnam. Qed.

End ProtocolInvariants.

(** ** These properties at sample inputs, on [lp64] *)

Section MoreChecks.
#[local] Existing Instance lp64.

Ltac sample_frozen :=
  exists sample_decl; split_and!;
  [ repeat econstructor | vm_compute; reflexivity | vm_compute; reflexivity ].

(** X1 at the sample class. *)
Lemma finish_setup_keeps_declarations_witness :
  class_name_ sample_class = class_name_ sample_decl
  ∧ length (properties_ sample_class) = length (properties_ sample_decl)
  ∧ ∀ pid pi, properties_ sample_decl !! pid = Some pi →
      ∃ pi', properties_ sample_class !! pid = Some pi'
             ∧ name pi' = name pi
             ∧ slot_kind sample_class pid = slot_kind sample_decl pid
             ∧ is_Some (slot_kind sample_class pid)
             ∧ is_Some (slot_offset sample_class pid).
Proof.
  apply (finish_setup_keeps_declarations sample_decl sample_class).
  vm_compute. reflexivity.
Defined.

(** X2 at the sample class. *)
Lemma finish_setup_again_witness : finish_setup sample_class = Ok sample_class.
Proof.
  apply (finish_setup_again sample_decl sample_class). vm_compute. reflexivity.
Defined.

(** X3 at byte 40 of the sample class. *)
Lemma finish_setup_fills_instance_witness :
  ∃ p off sz, slot_range sample_class p = Some (off, sz)
    ∧ off ≤ 40 ∧ 40 < off + sz
    ∧ ∀ q off_q sz_q, slot_range sample_class q = Some (off_q, sz_q) →
        off_q ≤ 40 → 40 < off_q + sz_q → q = p.
Proof.
  apply (finish_setup_fills_instance sample_decl sample_class 40).
  - vm_compute. reflexivity.
  - vm_compute. reflexivity.
  - vm_compute. reflexivity.
Defined.

(** X4 at the sample class, whose sizes are 1, 32, 4, 8, 8, 4. *)
Lemma finish_setup_natural_alignment_witness :
  chain_divisible (slot_sizes (properties_ sample_decl)) = true
  ∧ ∀ pid off sz, slot_range sample_class pid = Some (off, sz) → off mod sz = 0.
Proof.
  split; [vm_compute; reflexivity|].
  apply (finish_setup_natural_alignment sample_decl sample_class).
  - vm_compute. reflexivity.
  - vm_compute. reflexivity.
  - left. vm_compute. reflexivity.
Defined.

(** X5 at slots 1 and 2 of the sample class. *)
Lemma set_property_overwrites_and_commutes_witness :
  (set_property 1 "p" "b8" sample_decl ≫= set_property 1 "q" "r"
   = set_property 1 "q" "r" sample_decl)
  ∧ (1%nat ≠ 2%nat →
     set_property 1 "p" "b8" sample_decl ≫= set_property 2 "q" "r"
     = set_property 2 "q" "r" sample_decl ≫= set_property 1 "p" "b8")
  ∧ (∃ c1, set_property 1 "p" "b8" sample_decl = Ok c1
       ∧ length (properties_ c1) = length (properties_ sample_decl)
       ∧ instance_size_ c1 = instance_size_ sample_decl
       ∧ properties_ c1 !! 1%nat
         = Some {| name := "p"; type := property_of_tag "b8" |}
       ∧ ∀ k, k ≠ 1%nat → properties_ c1 !! k = properties_ sample_decl !! k)
  ∧ (∀ k nk tk, (length (properties_ sample_decl) ≤ k)%nat →
       set_property k nk tk sample_decl = Abort).
Proof.
  apply (set_property_overwrites_and_commutes sample_decl 1 2 "p" "b8" "q" "r").
  - vm_compute. lia.
  - vm_compute. lia.
Defined.

(** X6 at the sample class as declared. *)
Lemma unfrozen_class_undefined_witness :
  (properties_ sample_decl ≠ [] → instance_new sample_decl = Undefined)
  ∧ (∀ obj pid k s, slot_kind sample_decl pid = Some k →
       supports_set k s = true → call_set sample_decl obj pid s = Undefined)
  ∧ (∀ obj pid k g, slot_kind sample_decl pid = Some k →
       supports_get k g = true → call_get sample_decl obj pid g = Undefined).
Proof.
  apply (unfrozen_class_undefined sample_decl).
  intros pi p Hin Ht. simpl in Hin.
  repeat (apply elem_of_cons in Hin as [->|Hin];
          [vm_compute in Ht; by injection Ht as <-|]).
  by apply elem_of_nil in Hin.
Defined.

(** X7 at a registration of two slots in an empty scope. *)
Lemma registration_publishes_frozen_class_witness :
  ∃ s' c' classes',
    run (initial_state (Some ∅))
        (registration "L" "C" [("a", "b8"); ("s", "S")]) = Ok s'
    ∧ compile_class s' = None
    ∧ class_heap s' = class_heap (initial_state (Some ∅)) ++ [c']
    ∧ frozen c'
    ∧ class_name_ c' = "C"
    ∧ slot_kinds c'
      = map (fun d => kind <$> property_of_tag d.2) [("a", "b8"); ("s", "S")]
    ∧ current_scope s' = Some classes'
    ∧ classes' !! "C" = Some (length (class_heap (initial_state (Some ∅))))
    ∧ ∀ other, other ≠ "C" → classes' !! other = (∅ : gmap string nat) !! other.
Proof.
  apply (registration_publishes_frozen_class (initial_state (Some ∅)) ∅ "L" "C"
           [("a", "b8"); ("s", "S")]).
  - reflexivity.
  - reflexivity.
  - repeat (constructor; [simpl; repeat first [by left | right]|]).
    constructor.
  - vm_compute. reflexivity.
Defined.

(** X8 after a whole registration. *)
Lemma no_open_build_aborts_witness :
  (∀ idx nam typ,
     run (initial_state (Some ∅))
         (registration "L" "C" [("a", "b8")] ++ [class_property idx nam typ])
     = Abort)
  ∧ run (initial_state (Some ∅))
        (registration "L" "C" [("a", "b8")] ++ [class_done]) = Abort.
Proof.
  eapply (no_open_build_aborts (Some ∅) (registration "L" "C" [("a", "b8")])).
  - vm_compute. reflexivity.
  - reflexivity.
Defined.

(** X9 at a start and a declaration outside of any scope. *)
Lemma no_scope_no_class_done_witness :
  ∃ s', run (initial_state None)
            [class_start "L" "C" 1; class_property 0 "a" "b8"] = Ok s'
    ∧ (class_done ∉ [class_start "L" "C" 1; class_property 0 "a" "b8"])
    ∧ current_scope s' = None ∧ compile_class_done s' = Abort.
Proof.
  eexists. split; [vm_compute; reflexivity|].
  eapply (no_scope_no_class_done
            [class_start "L" "C" 1; class_property 0 "a" "b8"]
            (initial_state None)).
  - reflexivity.
  - vm_compute. reflexivity.
Defined.

(** X10: the sample class, at pointer 0, while another class is built. *)
Lemma finished_classes_unchanged_witness :
  ∃ s', run {| class_heap := [sample_class]; compile_class := None;
               sym_vpi := []; current_scope := None |}
            [class_start "L" "D" 1; class_property 0 "a" "r"] = Ok s'
    ∧ class_heap s' !! 0%nat = Some sample_class.
Proof.
  eexists. split; [vm_compute; reflexivity|].
  apply (finished_classes_unchanged
           [class_start "L" "D" 1; class_property 0 "a" "r"]
           {| class_heap := [sample_class]; compile_class := None;
              sym_vpi := []; current_scope := None |}).
  - vm_compute. reflexivity.
  - simpl. lia.
  - discriminate.
Defined.

(** X11 at property id 6 of the sample class, which has six slots. *)
Lemma accessor_pid_out_of_range_witness :
  (∀ s, call_set sample_class [] 6 s = Abort)
  ∧ (∀ g, call_get sample_class [] 6 g = Abort).
Proof.
  apply (accessor_pid_out_of_range sample_class [] 6). vm_compute. lia.
Defined.

(** X12 at [set_string] on the string slot of a fresh instance. *)
Lemma set_then_get_witness :
  ∃ obj, instance_new sample_class = Ok obj
    ∧ ∃ obj', call_set sample_class obj 1 (SetString "hello") = Ok obj'
        ∧ live_instance sample_class obj'
        ∧ ∀ val, call_get sample_class obj' 1 (getter_of property_string val)
                 = Ok (RString "hello").
Proof.
  eexists. split; [vm_compute; reflexivity|].
  apply (set_then_get sample_class _ 1 property_string (SetString "hello")).
  - sample_frozen.
  - apply instance_new_live; [sample_frozen|vm_compute; reflexivity].
  - reflexivity.
  - reflexivity.
  - reflexivity.
Defined.

(** X13 at the [Int32] slot of a fresh instance. *)
Lemma get_vec4_shape_witness :
  ∃ obj, instance_new sample_class = Ok obj
    ∧ ∃ n, load obj (default 0 (slot_offset sample_class 5)) (sizeof_atom int32_t)
           = Ok (Vatom n)
        ∧ (∀ val, get_vec4 sample_class obj 5 val
                  = Ok (bits_of (N.to_nat (8 * sizeof_atom int32_t)) n))
        ∧ length (bits_of (N.to_nat (8 * sizeof_atom int32_t)) n)
          = N.to_nat (8 * sizeof_atom int32_t)
        ∧ forallb bit4_concrete (bits_of (N.to_nat (8 * sizeof_atom int32_t)) n)
          = true.
Proof.
  eexists. split; [vm_compute; reflexivity|].
  apply (get_vec4_shape sample_class _ 5 int32_t).
  - sample_frozen.
  - apply instance_new_live; [sample_frozen|vm_compute; reflexivity].
  - reflexivity.
Defined.

(** X14 at a fresh instance of the sample class. *)
Lemma instance_delete_live_witness :
  ∃ obj, instance_new sample_class = Ok obj
    ∧ instance_delete sample_class obj = Ok tt.
Proof.
  eexists. split; [vm_compute; reflexivity|].
  apply (instance_delete_live sample_class).
  - sample_frozen.
  - apply instance_new_live; [sample_frozen|vm_compute; reflexivity].
Defined.

(** X15 at a fresh instance of the sample class. *)
Lemma destructed_instance_witness :
  ∃ obj, instance_new sample_class = Ok obj
    ∧ ∃ obj', destruct_all (properties_ sample_class) obj = Ok obj'
        ∧ length obj' = length obj
        ∧ (∀ pid k g, slot_kind sample_class pid = Some k →
             numeric_kind k = true →
             call_get sample_class obj' pid g = call_get sample_class obj pid g)
        ∧ (∀ pid k g, slot_kind sample_class pid = Some k →
             numeric_kind k = false → supports_get k g = true →
             call_get sample_class obj' pid g = Undefined)
        ∧ ((∃ pid k, slot_kind sample_class pid = Some k
                     ∧ numeric_kind k = false) →
           instance_delete sample_class obj' = Undefined).
Proof.
  eexists. split; [vm_compute; reflexivity|].
  apply (destructed_instance sample_class).
  - sample_frozen.
  - apply instance_new_live; [sample_frozen|vm_compute; reflexivity].
Defined.


(** X17 after two registrations under one name. *)
Lemma registry_holds_finished_classes_witness :
  ∃ s', run (initial_state (Some ∅))
            (registration "L1" "C" [("a", "b8")]
             ++ registration "L2" "C" [("r", "r"); ("s", "S")]) = Ok s'
    ∧ registry_ok s'.
Proof.
  eexists. split; [vm_compute; reflexivity|].
  apply (registry_holds_finished_classes
           (registration "L1" "C" [("a", "b8")]
            ++ registration "L2" "C" [("r", "r"); ("s", "S")])
           (initial_state (Some ∅))).
  - apply initial_state_valid.
  - apply initial_state_registry_ok.
  - vm_compute. reflexivity.
Defined.

End MoreChecks.
